(** * dnaPatternMatching: brute-force scan, Karp-Rabin scan and LCSS table

    A shallow embedding of [dnaPatternMatching.c] and the properties of its
    three algorithms.

    Conventions of the embedding.
    - A C string is the list of its [char] codes in front of the terminator;
      [strlen] is therefore the length of the list and index [strlen s]
      holds the terminating NUL.  A read at any other index outside the list
      leaves the object and is undefined: [char_at] answers [None].
    - [int] values are mathematical integers.  The arithmetic of [hash] and
      [rehash] is the one place where the program leaves the [int] range on
      small inputs, so there every operation is written with its 32-bit
      two's-complement wrap-around ([wrap]).  Lengths, loop counters,
      occurrence counts, table entries and table offsets are assumed to fit
      in [int], and [malloc] is assumed to succeed.
    - [(int) pow(2, p)] is [2^p] for [0 <= p <= 30], [0] for negative [p]
      (the double lies strictly between 0 and 1, or is 0, and the conversion
      truncates), and undefined ([None]) from [p = 31] on, where the double
      does not fit in [int].
    - Undefined behaviour is the [None] of the option monad.
    - The module [Machine] repeats the Karp-Rabin functions with the two
      undefined operations they can reach, the read past the terminator and
      the conversion that does not fit, answered by whatever the machine
      provides. *)

From Stdlib Require Import ZArith QArith Lia.
From stdpp Require Import base tactics option numbers list strings.

Close Scope Q_scope.
Local Open Scope Z_scope.

(** ** Machine integers *)

Module Int.

Definition INT_MAX : Z := 2147483647.
Definition INT_MIN : Z := -2147483648.
Definition modulus : Z := 4294967296.

(** Reduction of a mathematical integer to the [int] that represents it. *)
Definition wrap (z : Z) : Z := (z - INT_MIN) `mod` modulus + INT_MIN.

Definition add (x y : Z) : Z := wrap (x + y).
Definition sub (x y : Z) : Z := wrap (x - y).
Definition mul (x y : Z) : Z := wrap (x * y).

(** C's [%] truncates towards zero: the result has the sign of the dividend. *)
Definition rem (x y : Z) : Z := Z.rem x y.

(** [(int) pow(2, p)] *)
Definition pow2 (p : Z) : option Z :=
  if bool_decide (p < 0) then Some 0
  else if bool_decide (p ≤ 30) then Some (2 ^ p)
  else None.

Definition in_range (z : Z) : Prop := INT_MIN ≤ z ≤ INT_MAX.

End Int.

(** ** C strings *)

Definition strlen (s : list Z) : Z := Z.of_nat (length s).

(** [s[i]]: the symbols, then the terminator, then nothing. *)
Definition char_at (s : list Z) (i : Z) : option Z :=
  if bool_decide (0 ≤ i < strlen s) then s !! Z.to_nat i
  else if bool_decide (i = strlen s) then Some 0
  else None.

(** Codes of the characters of a string literal. *)
Definition str (s : string) : list Z :=
  (λ c, Z.of_N (Ascii.N_of_ascii c)) <$> String.list_ascii_of_string s.

(** The alphabet the loader lets through: a, c, g, t. *)
Definition nucleotide (c : Z) : Prop := c = 97 ∨ c = 99 ∨ c = 103 ∨ c = 116.
Definition dna (s : list Z) : Prop := Forall nucleotide s.

(** ** Loops *)

(** [fuel] iterations of a body that threads a state and may fail, the
    counter going up by one each time. *)
Fixpoint iterate {St : Type} (fuel : nat) (i : Z)
    (body : Z → St → option St) (st : St) : option St :=
  match fuel with
  | O => Some st
  | S k => st' ← body i st; iterate k (i + 1) body st'
  end.

(** [for (i = lo; i <= hi; i++) body]: neither [i] nor the bound is written
    by any body of the program, so the loop runs [hi - lo + 1] times, and not
    at all when [hi < lo]. *)
Definition for_upto {St : Type} (lo hi : Z)
    (body : Z → St → option St) (st : St) : option St :=
  iterate (Z.to_nat (hi - lo + 1)) lo body st.

(** [for (i = lo; i < hi; i++) body] *)
Definition for_below {St : Type} (lo hi : Z)
    (body : Z → St → option St) (st : St) : option St :=
  iterate (Z.to_nat (hi - lo)) lo body st.

(** The comparison loop shared by both matchers,
    [while (j < patternLength && patternSequence[j] == dnaSequence[i + j]) j++],
    returning the final [j].  [&&] does not read once [j] has reached the
    pattern length.  Each round increases [j], so [patternLength] rounds of
    fuel are enough; running out of it is [None]. *)
Fixpoint compare_loop (fuel : nat) (dnaSequence patternSequence : list Z)
    (i j : Z) : option Z :=
  if bool_decide (j < strlen patternSequence) then
    p ← char_at patternSequence j;
    d ← char_at dnaSequence (i + j);
    if bool_decide (p = d) then
      match fuel with
      | O => None
      | S k => compare_loop k dnaSequence patternSequence i (j + 1)
      end
    else Some j
  else Some j.

(** ** bruteForce *)

Definition bruteForce (dnaSequence patternSequence : list Z) : option Z :=
  let dnaLength := strlen dnaSequence in
  let patternLength := strlen patternSequence in
  for_upto 0 (dnaLength - patternLength)
    (λ i occurrences,
       j ← compare_loop (length patternSequence) dnaSequence patternSequence i 0;
       Some (if bool_decide (j = patternLength) then occurrences + 1
             else occurrences))
    0.

(** ** hash, rehash and karpRabin *)

Definition hash (sequence : list Z) (length : Z) : option Z :=
  '(value, _) ← for_upto 0 length
    (λ i '(value, p),
       c ← char_at sequence i;
       w ← Int.pow2 p;
       Some (Int.add value (Int.mul c w), p - 1))
    (0, length);
  Some (Int.rem value Int.INT_MAX).

Definition rehash (before hash after power : Z) : option Z :=
  w ← Int.pow2 power;
  Some (Int.rem (Int.add (Int.mul (Int.sub hash (Int.mul before w)) 2) after)
          Int.INT_MAX).

Definition karpRabin (dnaSequence patternSequence : list Z) : option Z :=
  let dnaLength := strlen dnaSequence in
  let patternLength := strlen patternSequence in
  patHash ← hash patternSequence (patternLength - 1);
  dnaHash ← hash dnaSequence (patternLength - 1);
  '(occurrences, _) ← for_upto 0 (dnaLength - patternLength)
    (λ i '(occurrences, dnaHash),
       occurrences' ←
         (if bool_decide (patHash = dnaHash) then
            j ← compare_loop (length patternSequence)
                  dnaSequence patternSequence i 0;
            Some (if bool_decide (j = patternLength) then occurrences + 1
                  else occurrences)
          else Some occurrences);
       before ← char_at dnaSequence i;
       after ← char_at dnaSequence (i + patternLength);
       dnaHash' ← rehash before dnaHash after (patternLength - 1);
       Some (occurrences', dnaHash'))
    (0, dnaHash);
  Some occurrences.

(** ** The Karp-Rabin functions on the machine

    A read past the terminator of a string and the conversion to [int] of a
    power of two that does not fit have no meaning in C, yet [karpRabin]
    performs the first whenever the pattern is more than one symbol longer
    than the sequence, and the second from 32 symbols on, and goes on with
    what it gets.  Here both are answered: [past i] is the [char] that
    memory holds at index [i] of the string, [convert p] the [int] that
    [(int) pow(2, p)] yields from [p = 31] on.  Nothing else differs from
    the definitions above. *)

Module Machine.

Definition char_at (past : Z → Z) (s : list Z) (i : Z) : option Z :=
  if bool_decide (0 ≤ i < strlen s) then s !! Z.to_nat i
  else if bool_decide (i = strlen s) then Some 0
  else Some (past i).

Definition pow2 (convert : Z → Z) (p : Z) : option Z :=
  if bool_decide (p < 0) then Some 0
  else if bool_decide (p ≤ 30) then Some (2 ^ p)
  else Some (convert p).

Fixpoint compare_loop (pastDna pastPattern : Z → Z) (fuel : nat)
    (dnaSequence patternSequence : list Z) (i j : Z) : option Z :=
  if bool_decide (j < strlen patternSequence) then
    p ← char_at pastPattern patternSequence j;
    d ← char_at pastDna dnaSequence (i + j);
    if bool_decide (p = d) then
      match fuel with
      | O => None
      | S k =>
          compare_loop pastDna pastPattern k dnaSequence patternSequence
            i (j + 1)
      end
    else Some j
  else Some j.

Definition hash (past convert : Z → Z) (sequence : list Z) (length : Z)
    : option Z :=
  '(value, _) ← for_upto 0 length
    (λ i '(value, p),
       c ← char_at past sequence i;
       w ← pow2 convert p;
       Some (Int.add value (Int.mul c w), p - 1))
    (0, length);
  Some (Int.rem value Int.INT_MAX).

Definition rehash (convert : Z → Z) (before hash after power : Z)
    : option Z :=
  w ← pow2 convert power;
  Some (Int.rem (Int.add (Int.mul (Int.sub hash (Int.mul before w)) 2) after)
          Int.INT_MAX).

Definition karpRabin (pastDna pastPattern convert : Z → Z)
    (dnaSequence patternSequence : list Z) : option Z :=
  let dnaLength := strlen dnaSequence in
  let patternLength := strlen patternSequence in
  patHash ← hash pastPattern convert patternSequence (patternLength - 1);
  dnaHash ← hash pastDna convert dnaSequence (patternLength - 1);
  '(occurrences, _) ← for_upto 0 (dnaLength - patternLength)
    (λ i '(occurrences, dnaHash),
       occurrences' ←
         (if bool_decide (patHash = dnaHash) then
            j ← compare_loop pastDna pastPattern (length patternSequence)
                  dnaSequence patternSequence i 0;
            Some (if bool_decide (j = patternLength) then occurrences + 1
                  else occurrences)
          else Some occurrences);
       before ← char_at pastDna dnaSequence i;
       after ← char_at pastDna dnaSequence (i + patternLength);
       dnaHash' ← rehash convert before dnaHash after (patternLength - 1);
       Some (occurrences', dnaHash'))
    (0, dnaHash);
  Some occurrences.

End Machine.

(** ** lcss *)

(** The block returned by [malloc]: one cell per [int], [None] until the
    cell is written.  Reading a cell that was never written, or any access
    outside the block, is undefined. *)
Definition store (arr : list (option Z)) (k v : Z) : option (list (option Z)) :=
  if bool_decide (0 ≤ k < Z.of_nat (length arr))
  then Some (<[Z.to_nat k := Some v]> arr)
  else None.

Definition fetch (arr : list (option Z)) (k : Z) : option Z :=
  if bool_decide (0 ≤ k < Z.of_nat (length arr))
  then mjoin (arr !! Z.to_nat k)
  else None.

(** The [max] macro: [_a > _b ? _a : _b]. *)
Definition max (a b : Z) : Z := if bool_decide (a > b) then a else b.

(** The [min] macro: [_a < _b ? _a : _b]. *)
Definition min (a b : Z) : Z := if bool_decide (a < b) then a else b.

Definition lcss (sequenceA sequenceB : list Z) : option Z :=
  let lenA := strlen sequenceA + 1 in
  let lenB := strlen sequenceB + 1 in
  let arr := replicate (Z.to_nat (lenA * lenB)) None in
  arr ← for_below 0 lenA (λ i arr, store arr (i * lenB) 0) arr;
  arr ← for_below 0 lenB (λ j arr, store arr j 0) arr;
  arr ← for_below 1 lenA
    (λ i arr,
       for_below 1 lenB
         (λ j arr,
            a ← char_at sequenceA (i - 1);
            b ← char_at sequenceB (j - 1);
            if bool_decide (a = b) then
              v ← fetch arr ((i - 1) * lenB + j - 1);
              store arr (i * lenB + j) (v + 1)
            else
              x ← fetch arr (i * lenB + j - 1);
              y ← fetch arr ((i - 1) * lenB + j);
              store arr (i * lenB + j) (max x y))
         arr)
    arr;
  fetch arr ((lenA - 1) * lenB + lenB - 1).

(** ** main *)

(** What [float] arithmetic can answer.  A finite result is kept as the exact
    rational, rounding is not modelled; the two other answers are those of
    IEEE 754 for a zero divisor. *)
Inductive float : Type :=
  | Finite (q : Q)
  | Infinity (negative : bool)
  | NaN.

(** [(float) n / d] for an [int] [n] and a [size_t] [d]. *)
Definition float_div (n d : Z) : float :=
  if bool_decide (d = 0) then
    (if bool_decide (n = 0) then NaN else Infinity (bool_decide (n < 0)))
  else Finite (Qmake n (Z.to_pos d)).

(** [1 - x] *)
Definition one_minus (x : float) : float :=
  match x with
  | Finite q => Finite (1 - q)%Q
  | Infinity negative => Infinity (negb negative)
  | NaN => NaN
  end.

(** What a run of the program ends with. *)
Inductive outcome : Type :=
  | Failure
      (** an error message, then [exit(EXIT_FAILURE)] *)
  | Found (occurrences : Z)
      (** "The pattern was found: %d times", exit status 0 *)
  | Similarity (lcssLength : Z) (distance : float)
      (** the LCSS length and the distance are printed, exit status 0 *).

(** [main] from the point where both files have been read: [algorithm] is
    [argv[1]], [dnaLength] and [patternLength] are what
    [countFileCharacters] returned for the two files, and the two sequences
    are the strings that [readFile] stored. *)
Definition main (algorithm : string) (dnaLength patternLength : Z)
    (dnaSequence patternSequence : list Z) : option outcome :=
  if bool_decide (dnaLength < patternLength)
     && negb (String.eqb algorithm "-lcss")
  then Some Failure
  else if String.eqb algorithm "-bf" then
    occurrences ← bruteForce dnaSequence patternSequence;
    Some (Found occurrences)
  else if String.eqb algorithm "-kr" then
    occurrences ← karpRabin dnaSequence patternSequence;
    Some (Found occurrences)
  else if String.eqb algorithm "-lcss" then
    lcssLength ← lcss dnaSequence patternSequence;
    let distance :=
      one_minus (float_div lcssLength
                   (min (strlen dnaSequence) (strlen patternSequence))) in
    Some (Similarity lcssLength distance)
  else Some Failure.

(** ** Reference notions the properties are stated against *)

(** [P] occupies [S[i .. i + |P|)]. *)
Definition occurs_at (S P : list Z) (i : nat) : Prop :=
  take (length P) (drop i S) = P.

Global Instance occurs_at_dec S P i : Decision (occurs_at S P i).
Proof. unfold occurs_at. apply _. Defined.

(** The start offsets [0 .. |S| - |P|]; there is none when [|P| > |S|]. *)
Definition offsets (S P : list Z) : list nat :=
  seq 0 (Datatypes.S (length S) - length P).

(** Number of start offsets at which the pattern occurs. *)
Definition occurrence_count (S P : list Z) : Z :=
  Z.of_nat (length (filter (occurs_at S P) (offsets S P))).

(** The recurrence of the alignment table:
    [T[0][*] = T[*][0] = 0], and for [1 <= i <= |A|], [1 <= j <= |B|],
    [T[i][j] = T[i-1][j-1] + 1] when [A[i-1] = B[j-1]],
    else [max (T[i-1][j]) (T[i][j-1])]. *)
Fixpoint lcs_table (A B : list Z) (i : nat) : nat → Z :=
  match i with
  | O => λ _, 0
  | Datatypes.S i' =>
      fix row (j : nat) : Z :=
        match j with
        | O => 0
        | Datatypes.S j' =>
            if bool_decide (A !! i' = B !! j')
            then lcs_table A B i' j' + 1
            else Z.max (lcs_table A B i' j) (row j')
        end
  end.

(** [n] is the length of a longest common subsequence of [A] and [B]. *)
Definition lcs_length (A B : list Z) (n : Z) : Prop :=
  (∃ C, C `sublist_of` A ∧ C `sublist_of` B ∧ Z.of_nat (length C) = n) ∧
  (∀ C, C `sublist_of` A → C `sublist_of` B → Z.of_nat (length C) ≤ n).

(** ** Notions used by the proofs *)

(** Occurrences among the first [n] start offsets. *)
Definition count_upto (S P : list Z) (n : nat) : Z :=
  Z.of_nat (length (filter (occurs_at S P) (seq 0 n))).

(** The symbol read at index [k], the terminator included. *)
Definition code (s : list Z) (k : nat) : Z := default 0 (s !! k).

(** The polynomial the hash is meant to be: the first [n] symbols weighted
    by descending powers of two, [s[0] * 2^(n-1) + ... + s[n-1] * 2^0]. *)
Fixpoint weigh (s : list Z) (n : nat) : Z :=
  match n with
  | O => 0
  | Datatypes.S n' => 2 * weigh s n' + code s n'
  end.

(** Row-major offset of cell [(i, j)] in the block. *)
Definition offset (B : list Z) (i j : Z) : Z := i * (strlen B + 1) + j.

(** Entry [(i, j)] of the recurrence, at the loop counters of the code. *)
Definition entry (A B : list Z) (i j : Z) : Z :=
  lcs_table A B (Z.to_nat i) (Z.to_nat j).

(** The block has the size of the table, and every cell selected by [D]
    holds the entry of the recurrence. *)
Definition known (A B : list Z) (D : Z → Z → Prop) (arr : list (option Z))
    : Prop :=
  length arr = Z.to_nat ((strlen A + 1) * (strlen B + 1)) ∧
  ∀ i j, 0 ≤ i ≤ strlen A → 0 ≤ j ≤ strlen B → D i j →
         arr !! Z.to_nat (offset B i j) = Some (Some (entry A B i j)).

(** ** countFileCharacters and readFile *)

(** The values of [<stdio.h>] and [<stdlib.h>] on the platform. *)
Definition EOF : Z := -1.
Definition EXIT_SUCCESS : Z := 0.
Definition EXIT_FAILURE : Z := 1.

(** What [fopen(filePath, "r")] finds: the bytes of the file, each between
    0 and 255, or nothing when the file cannot be opened. *)
Definition filesystem : Type := string → option (list Z).

(** [char ch = fgetc(file)]: the [int] that [fgetc] returns, a byte or
    [EOF], is narrowed to a [char], which is signed and 8 bits wide. *)
Definition to_char (v : Z) : Z := (v + 128) `mod` 256 - 128.

(** A function of the program either returns to its caller or ends the
    process with [exit(EXIT_FAILURE)]. *)
Inductive call (A : Type) : Type :=
  | Exits
  | Returns (a : A).
Arguments Exits {A}.
Arguments Returns {A} a.

(** The loop of [countFileCharacters] on the bytes still to be read; the
    end of the list is where [fgetc] answers [EOF]. *)
Fixpoint count_loop (stream : list Z) (count : Z) : Z :=
  match stream with
  | [] => count
  | byte :: stream' =>
      let ch := to_char byte in
      if bool_decide (ch = EOF) then count
      else if bool_decide (ch ≠ 97 ∧ ch ≠ 99 ∧ ch ≠ 103 ∧ ch ≠ 116 ∧ ch ≠ 10)
      then EXIT_FAILURE
      else count_loop stream'
             (if bool_decide (ch ≠ 10) then count + 1 else count)
  end.

Definition countFileCharacters (fs : filesystem) (filePath : string)
    : call Z :=
  match fs filePath with
  | None => Exits
  | Some stream => Returns (count_loop stream 0)
  end.

(** [malloc(n * sizeof(char))]: [n] cells, none of them written. *)
Definition malloc (n : Z) : list (option Z) := replicate (Z.to_nat n) None.

(** The loop of [readFile]: every character but the newline is stored at
    the next index of [sequence].  The block of [char]s is modelled like the
    block of [int]s of [lcss], and a store outside of it is undefined. *)
Fixpoint read_loop (stream : list Z) (sequence : list (option Z)) (i : Z)
    : option (list (option Z) * Z) :=
  match stream with
  | [] => Some (sequence, i)
  | byte :: stream' =>
      let ch := to_char byte in
      if bool_decide (ch = EOF) then Some (sequence, i)
      else if bool_decide (ch ≠ 10) then
        sequence' ← store sequence i ch;
        read_loop stream' sequence' (i + 1)
      else read_loop stream' sequence i
  end.

(** [readFile] returns its status and leaves the characters in [sequence]. *)
Definition readFile (sequence : list (option Z)) (fs : filesystem)
    (filePath : string) : option (Z * list (option Z)) :=
  match fs filePath with
  | None => Some (EXIT_FAILURE, sequence)
  | Some stream =>
      '(sequence, i) ← read_loop stream sequence 0;
      sequence ← store sequence i 0;
      Some (EXIT_SUCCESS, sequence)
  end.

(** The characters of a file that are not newlines, in order. *)
Definition symbols (stream : list Z) : list Z :=
  filter (λ ch, ch ≠ 10) (to_char <$> stream).

(** What the loader accepts: a, c, g, t and the newline. *)
Definition loadable (stream : list Z) : Prop :=
  Forall (λ byte, nucleotide byte ∨ byte = 10) stream.

(** * Properties *)

(** ** Loops *)

Section iterate.
Context {St : Type}.
Implicit Types (body : Z → St → option St) (Inv : Z → St → Prop).

(** A body that preserves an invariant never fails, and the invariant
    holds when the counter has reached the bound. *)
Lemma iterate_inv Inv body fuel lo st :
  Inv lo st →
  (∀ i s, lo ≤ i < lo + Z.of_nat fuel → Inv i s →
          ∃ s', body i s = Some s' ∧ Inv (i + 1) s') →
  ∃ st', iterate fuel lo body st = Some st' ∧ Inv (lo + Z.of_nat fuel) st'.
Proof.
  revert lo st. induction fuel as [|k IH]; intros lo st Hlo Hstep.
  - exists st. split; [done|]. by replace (lo + Z.of_nat 0) with lo by lia.
  - destruct (Hstep lo st) as (s' & Hbody & Hs'); [lia|done|].
    destruct (IH (lo + 1) s') as (st' & Hrun & Hst'); [done| |].
    + intros i s Hi. apply Hstep. lia.
    + exists st'. split; [by simpl; rewrite Hbody|].
      by replace (lo + Z.of_nat (S k)) with (lo + 1 + Z.of_nat k) by lia.
Qed.

End iterate.

(** ** Strings *)

Lemma char_at_lookup (s : list Z) (n : nat) :
  (n < length s)%nat → char_at s (Z.of_nat n) = s !! n.
Proof.
  intros Hn. unfold char_at, strlen.
  rewrite bool_decide_eq_true_2 by lia. by rewrite Nat2Z.id.
Qed.

Lemma char_at_terminator (s : list Z) : char_at s (strlen s) = Some 0.
Proof.
  unfold char_at. rewrite bool_decide_eq_false_2 by lia.
  by rewrite bool_decide_eq_true_2.
Qed.

Lemma occurs_at_lookup (S P : list Z) (i : nat) :
  occurs_at S P i ↔ ∀ k, (k < length P)%nat → S !! (i + k)%nat = P !! k.
Proof.
  unfold occurs_at. split.
  - intros HP k Hk. rewrite <- HP.
    rewrite lookup_take_lt by done. by rewrite lookup_drop.
  - intros HP. apply list_eq. intros k.
    destruct (decide (k < length P)%nat) as [Hk|Hk].
    + rewrite lookup_take_lt by done. rewrite lookup_drop. by apply HP.
    + rewrite lookup_take_ge by lia. symmetry. apply lookup_ge_None. lia.
  Qed.

(** ** The comparison loop *)

Lemma compare_loop_unfold fuel S P i j :
  compare_loop fuel S P i j =
  if bool_decide (j < strlen P) then
    p ← char_at P j;
    d ← char_at S (i + j);
    if bool_decide (p = d) then
      match fuel with
      | O => None
      | Datatypes.S k => compare_loop k S P i (j + 1)
      end
    else Some j
  else Some j.
Proof. by destruct fuel. Qed.

(** On a window that lies inside the sequence the loop stops at the first
    mismatch, or at the pattern length when there is none. *)
Lemma compare_loop_spec (S P : list Z) (i fuel j : nat) :
  (i + length P ≤ length S)%nat →
  (j ≤ length P ≤ fuel + j)%nat →
  (∀ k, (k < j)%nat → S !! (i + k)%nat = P !! k) →
  ∃ j' : nat,
    compare_loop fuel S P (Z.of_nat i) (Z.of_nat j) = Some (Z.of_nat j') ∧
    (j' = length P ↔ occurs_at S P i).
Proof.
  intros Hwin. revert j. induction fuel as [|fuel IH]; intros j Hj Hpre;
    rewrite compare_loop_unfold; unfold strlen; case_bool_decide as Hlt.
  - lia.
  - exists j. split; [done|]. rewrite occurs_at_lookup. split; [|lia].
    intros -> k Hk. by apply Hpre.
  - destruct (lookup_lt_is_Some_2 P j) as [p Hp]; [lia|].
    destruct (lookup_lt_is_Some_2 S (i + j)) as [d Hd]; [lia|].
    rewrite char_at_lookup, Hp by lia. simpl.
    rewrite <- Nat2Z.inj_add, char_at_lookup, Hd by lia. simpl.
    case_bool_decide as Heq.
    + subst d. replace (Z.of_nat j + 1) with (Z.of_nat (Datatypes.S j)) by lia.
      apply IH; [lia|]. intros k Hk.
      destruct (decide (k = j)) as [->|]; [congruence|apply Hpre; lia].
    + exists j. split; [done|]. rewrite occurs_at_lookup. split; [lia|].
      intros HP. specialize (HP j). rewrite Hd, Hp in HP.
      exfalso. apply Heq. assert (Some d = Some p) by (apply HP; lia).
      congruence.
  - exists j. split; [done|]. rewrite occurs_at_lookup. split; [|lia].
    intros -> k Hk. by apply Hpre.
Qed.

(** One round of the scan at an offset inside the sequence. *)
Lemma compare_window (S P : list Z) (i : nat) :
  (i + length P ≤ length S)%nat →
  ∃ j : Z,
    compare_loop (length P) S P (Z.of_nat i) 0 = Some j ∧
    (j = strlen P ↔ occurs_at S P i).
Proof.
  intros Hwin.
  destruct (compare_loop_spec S P i (length P) 0) as (j' & Hrun & Hj');
    [done|lia|lia|].
  exists (Z.of_nat j'). split; [done|]. unfold strlen. rewrite <- Hj'. lia.
Qed.

Lemma count_upto_S S P n :
  count_upto S P (Datatypes.S n) =
  if bool_decide (occurs_at S P n) then count_upto S P n + 1
  else count_upto S P n.
Proof.
  unfold count_upto. rewrite seq_S, filter_app, length_app. simpl.
  case_bool_decide.
  - rewrite filter_cons_True by done. simpl. lia.
  - rewrite filter_cons_False by done. simpl. lia.
Qed.

Lemma scan_fuel (S P : list Z) :
  Z.to_nat (strlen S - strlen P + 1) = (Datatypes.S (length S) - length P)%nat.
Proof. unfold strlen. lia. Qed.

(** ** bruteForce *)

Lemma bruteForce_spec (S P : list Z) :
  bruteForce S P = Some (occurrence_count S P).
Proof.
  unfold bruteForce, for_upto, occurrence_count, offsets.
  rewrite Z.sub_0_r, scan_fuel.
  remember (Datatypes.S (length S) - length P)%nat as n eqn:Hn.
  match goal with |- iterate _ _ ?b _ = _ => set (body := b) end.
  destruct (iterate_inv
              (λ i occ, occ = count_upto S P (Z.to_nat i)) body n 0 0)
    as (occ & Hrun & Hocc).
  - done.
  - intros i occ Hi ->. subst body. simpl.
    destruct (compare_window S P (Z.to_nat i)) as (j & Hj & Hiff); [lia|].
    rewrite Z2Nat.id in Hj by lia. rewrite Hj. simpl.
    eexists. split; [done|].
    replace (Z.to_nat (i + 1)) with (Datatypes.S (Z.to_nat i)) by lia.
    rewrite count_upto_S.
    by rewrite (bool_decide_ext _ _ Hiff).
  - rewrite Hrun, Hocc. unfold count_upto. by rewrite Z.add_0_l, Nat2Z.id, Hn.
Qed.

(** ** The alignment table *)

Section table.
Variables A B : list Z.

Lemma offset_bounds i j :
  0 ≤ i ≤ strlen A → 0 ≤ j ≤ strlen B →
  0 ≤ offset B i j < (strlen A + 1) * (strlen B + 1).
Proof. unfold offset, strlen. nia. Qed.

Lemma offset_inj i j i' j' :
  0 ≤ j ≤ strlen B → 0 ≤ j' ≤ strlen B →
  offset B i j = offset B i' j' → i = i' ∧ j = j'.
Proof.
  unfold offset. generalize (strlen B). intros w Hj Hj' Heq.
  assert (i = i') as -> by (destruct (Z.lt_trichotomy i i') as [?|[?|?]]; nia).
  lia.
Qed.

Lemma known_weaken (D D' : Z → Z → Prop) arr :
  known A B D arr →
  (∀ i j, 0 ≤ i ≤ strlen A → 0 ≤ j ≤ strlen B → D' i j → D i j) →
  known A B D' arr.
Proof. intros [Hlen Hcells] Himp. split; [done|]. eauto. Qed.

Lemma known_fetch (D : Z → Z → Prop) arr i j k :
  known A B D arr → 0 ≤ i ≤ strlen A → 0 ≤ j ≤ strlen B → D i j →
  k = offset B i j →
  fetch arr k = Some (entry A B i j).
Proof.
  intros [Hlen Hcells] Hi Hj HD ->. unfold fetch.
  pose proof (offset_bounds i j Hi Hj).
  rewrite bool_decide_eq_true_2 by lia.
  by rewrite (Hcells i j Hi Hj HD).
Qed.

Lemma known_store (D D' : Z → Z → Prop) arr i j k v :
  known A B D arr → 0 ≤ i ≤ strlen A → 0 ≤ j ≤ strlen B →
  k = offset B i j → v = entry A B i j →
  (∀ i' j', D' i' j' → D i' j' ∨ (i' = i ∧ j' = j)) →
  ∃ arr', store arr k v = Some arr' ∧ known A B D' arr'.
Proof.
  intros [Hlen Hcells] Hi Hj -> -> Hnew. unfold store.
  pose proof (offset_bounds i j Hi Hj).
  rewrite bool_decide_eq_true_2 by lia.
  eexists. split; [done|]. split; [by rewrite length_insert|].
  intros i' j' Hi' Hj' HD'.
  destruct (decide (offset B i' j' = offset B i j)) as [Heq|Hne].
  - apply offset_inj in Heq as [-> ->]; [|done..].
    rewrite list_lookup_insert_eq; [done|lia].
  - rewrite list_lookup_insert_ne.
    + destruct (Hnew i' j' HD') as [HD|[-> ->]]; [by apply Hcells|done].
    + pose proof (offset_bounds i' j' Hi' Hj'). lia.
Qed.

Lemma entry_row_0 j : entry A B 0 j = 0.
Proof. done. Qed.

Lemma entry_col_0 i : entry A B i 0 = 0.
Proof. unfold entry. simpl. by destruct (Z.to_nat i). Qed.

Lemma max_is_Zmax a b : max a b = Z.max a b.
Proof. unfold max. case_bool_decide; lia. Qed.

Lemma char_at_inside (s : list Z) (i : Z) :
  0 ≤ i < strlen s → ∃ c, char_at s i = Some c ∧ s !! Z.to_nat i = Some c.
Proof.
  intros Hi. unfold strlen in Hi.
  destruct (lookup_lt_is_Some_2 s (Z.to_nat i)) as [c Hc]; [lia|].
  exists c. split; [|done].
  rewrite <- (Z2Nat.id i) by lia. rewrite char_at_lookup by lia. done.
Qed.

Lemma entry_step i j a b :
  1 ≤ i → 1 ≤ j →
  A !! Z.to_nat (i - 1) = Some a → B !! Z.to_nat (j - 1) = Some b →
  entry A B i j =
  if bool_decide (a = b) then entry A B (i - 1) (j - 1) + 1
  else Z.max (entry A B (i - 1) j) (entry A B i (j - 1)).
Proof.
  intros Hi Hj Ha Hb. unfold entry.
  replace (Z.to_nat i) with (Datatypes.S (Z.to_nat (i - 1))) by lia.
  replace (Z.to_nat j) with (Datatypes.S (Z.to_nat (j - 1))) at 1 by lia.
  simpl. rewrite Ha, Hb.
  replace (Datatypes.S (Z.to_nat (j - 1))) with (Z.to_nat j) by lia.
  repeat case_bool_decide; congruence.
Qed.

(** The three loops of [lcss] fill the block with the recurrence, never
    reading a cell before it is written, and the last cell is returned. *)
Lemma lcss_table :
  lcss A B = Some (lcs_table A B (length A) (length B)).
Proof.
  unfold lcss, for_below.
  set (lenB := strlen B + 1).
  (* column 0 *)
  destruct (iterate_inv
    (λ i arr, known A B (λ i' j', j' = 0 ∧ i' < i) arr)
    (λ i arr, store arr (i * lenB) 0)
    (Z.to_nat (strlen A + 1 - 0)) 0
    (replicate (Z.to_nat ((strlen A + 1) * lenB)) None))
    as (arr1 & -> & Hcol).
  { split; [by rewrite length_replicate|]. lia. }
  { intros i arr Hi Harr. simpl.
    eapply known_store with (i := i) (j := 0);
      [exact Harr|lia|unfold strlen; lia| | |].
    - unfold offset, lenB. lia.
    - by rewrite entry_col_0.
    - lia. }
  simpl.
  (* row 0 *)
  destruct (iterate_inv
    (λ j arr, known A B (λ i' j', j' = 0 ∨ (i' = 0 ∧ j' < j)) arr)
    (λ j arr, store arr j 0)
    (Z.to_nat (lenB - 0)) 0 arr1)
    as (arr2 & -> & Hrow).
  { eapply known_weaken; [exact Hcol|]. cbv beta. lia. }
  { intros j arr Hj Harr. simpl.
    eapply known_store with (i := 0) (j := j);
      [exact Harr|unfold strlen; lia|lia| | |].
    - unfold offset. lia.
    - by rewrite entry_row_0.
    - lia. }
  simpl.
  (* the rows 1 .. |A| *)
  match goal with |- iterate _ _ ?b _ ≫= _ = _ => set (rows := b) end.
  destruct (iterate_inv
    (λ i arr, known A B (λ i' j', i' = 0 ∨ j' = 0 ∨ i' < i ∨ (i' = i ∧ j' < 1)) arr)
    rows (Z.to_nat (strlen A + 1 - 1)) 1 arr2)
    as (arr3 & -> & Hall).
  { eapply known_weaken; [exact Hrow|]. cbv beta. lia. }
  { intros i arr Hi Harr. subst rows. simpl.
    match goal with |- ∃ _, iterate _ _ ?b _ = _ ∧ _ => set (cells := b) end.
    destruct (iterate_inv
      (λ j arr, known A B (λ i' j', i' = 0 ∨ j' = 0 ∨ i' < i ∨ (i' = i ∧ j' < j)) arr)
      cells (Z.to_nat (lenB - 1)) 1 arr)
      as (arr' & -> & Hrow_i); [done| |].
    - intros j row Hj Hknown. subst cells. simpl.
      destruct (char_at_inside A (i - 1)) as (a & -> & Ha); [lia|].
      destruct (char_at_inside B (j - 1)) as (b & -> & Hb); [unfold lenB in *; lia|].
      simpl.
      assert (0 ≤ i ≤ strlen A ∧ 0 ≤ j ≤ strlen B) as [Hi' Hj']
        by (unfold lenB in *; lia).
      pose proof (entry_step i j a b ltac:(lia) ltac:(lia) Ha Hb) as Hent.
      destruct (decide (a = b)) as [Hab|Hab].
      + rewrite bool_decide_eq_true_2 in Hent |- * by done.
        rewrite (known_fetch _ row (i - 1) (j - 1) _ Hknown);
          [|lia|lia|lia|unfold offset, lenB; lia].
        simpl. eapply known_store with (i := i) (j := j);
          [exact Hknown|done|done|unfold offset, lenB; lia|done|].
        cbv beta. lia.
      + rewrite bool_decide_eq_false_2 in Hent |- * by done.
        rewrite (known_fetch _ row i (j - 1) (i * lenB + j - 1) Hknown);
          [|lia|lia|lia|unfold offset, lenB; lia].
        simpl.
        rewrite (known_fetch _ row (i - 1) j ((i - 1) * lenB + j) Hknown);
          [|lia|lia|lia|unfold offset, lenB; lia].
        simpl. eapply known_store with (i := i) (j := j);
          [exact Hknown|done|done|unfold offset, lenB; lia| |].
        * rewrite max_is_Zmax, Hent. lia.
        * cbv beta. lia.
    - exists arr'. split; [done|].
      eapply known_weaken; [exact Hrow_i|]. unfold lenB. cbv beta. lia. }
  simpl.
  rewrite (known_fetch _ arr3 (strlen A) (strlen B) _ Hall).
  - unfold entry, strlen. by rewrite !Nat2Z.id.
  - unfold strlen. lia.
  - unfold strlen. lia.
  - cbv beta. unfold strlen. lia.
  - unfold offset, lenB. lia.
Qed.

End table.

(** ** The recurrence *)

Lemma lcs_table_col_0 A B i : lcs_table A B i 0 = 0.
Proof. by destruct i. Qed.

Lemma lcs_table_step A B i j :
  lcs_table A B (Datatypes.S i) (Datatypes.S j) =
  if bool_decide (A !! i = B !! j) then lcs_table A B i j + 1
  else Z.max (lcs_table A B i (Datatypes.S j)) (lcs_table A B (Datatypes.S i) j).
Proof. done. Qed.

Lemma lcs_table_bounds A B i j :
  0 ≤ lcs_table A B i j ≤ Z.of_nat (i `min` j).
Proof.
  revert j. induction i as [|i IHi]; intros j; [simpl; lia|].
  induction j as [|j IHj]; [rewrite lcs_table_col_0; lia|].
  rewrite lcs_table_step. pose proof (IHi j). pose proof (IHi (Datatypes.S j)).
  case_bool_decide; lia.
Qed.

Lemma lcs_table_sym A B i j : lcs_table A B i j = lcs_table B A j i.
Proof.
  revert j. induction i as [|i IHi]; intros j.
  - by rewrite lcs_table_col_0.
  - induction j as [|j IHj]; [by rewrite lcs_table_col_0|].
    rewrite !lcs_table_step, IHj, (IHi j), (IHi (Datatypes.S j)).
    repeat case_bool_decide; try congruence. apply Z.max_comm.
Qed.

(** ** Longest common subsequences *)

Lemma sublist_snoc_inv (C l : list Z) (x : Z) :
  C `sublist_of` l ++ [x] →
  C `sublist_of` l ∨ ∃ C', C = C' ++ [x] ∧ C' `sublist_of` l.
Proof.
  intros (C1 & C2 & -> & H1 & H2)%sublist_app_r.
  apply sublist_cons_r in H2 as [H2|(C2' & -> & H2)];
    apply sublist_nil_r in H2 as ->.
  - left. by rewrite app_nil_r.
  - right. eauto.
Qed.

Lemma lcs_length_nil_l B : lcs_length [] B 0.
Proof.
  split.
  - exists []. split_and!; [done|apply sublist_nil_l|done].
  - intros C ->%sublist_nil_r _. done.
Qed.

Lemma lcs_length_nil_r A : lcs_length A [] 0.
Proof.
  split.
  - exists []. split_and!; [apply sublist_nil_l|done|done].
  - intros C _ ->%sublist_nil_r. done.
Qed.

Lemma lcs_length_snoc_eq A B x n :
  lcs_length A B n → lcs_length (A ++ [x]) (B ++ [x]) (n + 1).
Proof.
  intros [(C & HA & HB & Hlen) Hub]. split.
  - exists (C ++ [x]). split_and!; [by apply sublist_app..|].
    rewrite length_app. simpl. lia.
  - intros D HDA HDB.
    assert (∀ D', D = D' ++ [x] → D' `sublist_of` A → D' `sublist_of` B →
                  Z.of_nat (length D) ≤ n + 1) as Hlast.
    { intros D' -> HA' HB'. specialize (Hub D' HA' HB').
      rewrite length_app. simpl. lia. }
    destruct (sublist_snoc_inv _ _ _ HDA) as [HA'|(D' & -> & HA')].
    + destruct (sublist_snoc_inv _ _ _ HDB) as [HB'|(D' & -> & HB')].
      * specialize (Hub D HA' HB'). lia.
      * apply (Hlast D'); [done| |done].
        etrans; [|exact HA']. by apply sublist_inserts_r.
    + apply (Hlast D'); [done|done|]. by apply sublist_app_inv_r in HDB.
Qed.

Lemma lcs_length_snoc_ne A B x y n1 n2 :
  x ≠ y →
  lcs_length A (B ++ [y]) n1 → lcs_length (A ++ [x]) B n2 →
  lcs_length (A ++ [x]) (B ++ [y]) (Z.max n1 n2).
Proof.
  intros Hxy [(C1 & HA1 & HB1 & Hlen1) Hub1] [(C2 & HA2 & HB2 & Hlen2) Hub2].
  split.
  - destruct (Z.max_spec n1 n2) as [[_ ->]|[_ ->]].
    + exists C2. split_and!; [done|by apply sublist_inserts_r|done].
    + exists C1. split_and!; [by apply sublist_inserts_r|done|done].
  - intros D HDA HDB.
    destruct (sublist_snoc_inv _ _ _ HDA) as [HA'|(D1 & -> & HA')].
    + specialize (Hub1 D HA' HDB). lia.
    + destruct (sublist_snoc_inv _ _ _ HDB) as [HB'|(D2 & Heq & HB')].
      * specialize (Hub2 _ HDA HB'). lia.
      * apply app_inj_tail in Heq as [_ ?]. done.
Qed.

(** Entry [(i, j)] is the length of a longest common subsequence of the
    first [i] symbols of [A] and the first [j] symbols of [B]. *)
Lemma lcs_table_prefixes A B i j :
  (i ≤ length A)%nat → (j ≤ length B)%nat →
  lcs_length (take i A) (take j B) (lcs_table A B i j).
Proof.
  revert j. induction i as [|i IHi]; intros j Hi Hj.
  { apply lcs_length_nil_l. }
  induction j as [|j IHj].
  { rewrite lcs_table_col_0. apply lcs_length_nil_r. }
  destruct (lookup_lt_is_Some_2 A i) as [a Ha]; [lia|].
  destruct (lookup_lt_is_Some_2 B j) as [b Hb]; [lia|].
  rewrite lcs_table_step, Ha, Hb.
  rewrite (take_S_r A i a), (take_S_r B j b) by done.
  case_bool_decide as Hab.
  - injection Hab as ->. apply lcs_length_snoc_eq, IHi; lia.
  - apply lcs_length_snoc_ne; [congruence| |].
    + rewrite <- (take_S_r B j b) by done. apply IHi; lia.
    + rewrite <- (take_S_r A i a) by done. apply IHj; lia.
Qed.

Lemma lcs_table_optimal A B :
  lcs_length A B (lcs_table A B (length A) (length B)).
Proof.
  pose proof (lcs_table_prefixes A B (length A) (length B)) as H.
  rewrite !firstn_all in H. by apply H.
Qed.

(** ** Machine arithmetic *)

Lemma wrap_shift z k : Int.wrap (z + k * Int.modulus) = Int.wrap z.
Proof.
  unfold Int.wrap.
  replace (z + k * Int.modulus - Int.INT_MIN)
    with (z - Int.INT_MIN + k * Int.modulus) by ring.
  by rewrite Z_mod_plus_full.
Qed.

Lemma wrap_decomp z : ∃ q, Int.wrap z = z + q * Int.modulus.
Proof.
  exists (- ((z - Int.INT_MIN) `div` Int.modulus)). unfold Int.wrap.
  rewrite Z.mod_eq by done. ring.
Qed.

Lemma wrap_small z : Int.in_range z → Int.wrap z = z.
Proof.
  unfold Int.in_range, Int.wrap, Int.INT_MIN, Int.INT_MAX, Int.modulus.
  intros Hz.
  rewrite Z.mod_small by lia. lia.
Qed.

Lemma wrap_add_l x y : Int.wrap (Int.wrap x + y) = Int.wrap (x + y).
Proof.
  destruct (wrap_decomp x) as [q ->].
  replace (x + q * Int.modulus + y) with (x + y + q * Int.modulus) by ring.
  apply wrap_shift.
Qed.

Lemma wrap_add_r x y : Int.wrap (x + Int.wrap y) = Int.wrap (x + y).
Proof. by rewrite Z.add_comm, wrap_add_l, Z.add_comm. Qed.

Lemma wrap_sub_l x y : Int.wrap (Int.wrap x - y) = Int.wrap (x - y).
Proof. by rewrite <- !Z.add_opp_r, wrap_add_l. Qed.

Lemma wrap_sub_r x y : Int.wrap (x - Int.wrap y) = Int.wrap (x - y).
Proof.
  destruct (wrap_decomp y) as [q ->].
  replace (x - (y + q * Int.modulus)) with (x - y + - q * Int.modulus) by ring.
  apply wrap_shift.
Qed.

Lemma wrap_mul_l x y : Int.wrap (Int.wrap x * y) = Int.wrap (x * y).
Proof.
  destruct (wrap_decomp x) as [q ->].
  replace ((x + q * Int.modulus) * y) with (x * y + q * y * Int.modulus) by ring.
  apply wrap_shift.
Qed.

Lemma pow2_exact p : 0 ≤ p ≤ 30 → Int.pow2 p = Some (2 ^ p).
Proof.
  intros Hp. unfold Int.pow2.
  rewrite bool_decide_eq_false_2 by lia. by rewrite bool_decide_eq_true_2 by lia.
Qed.

(** ** hash *)

Lemma char_at_code (s : list Z) (k : nat) :
  (k ≤ length s)%nat → char_at s (Z.of_nat k) = Some (code s k).
Proof.
  intros Hk. unfold code. destruct (decide (k = length s)) as [->|Hne].
  - rewrite lookup_ge_None_2 by done. apply char_at_terminator.
  - rewrite char_at_lookup by lia.
    destruct (lookup_lt_is_Some_2 s k) as [c ->]; [lia|done].
Qed.

(** While every read stays inside the string and every power of two fits,
    [hash] returns the polynomial of the first [n] symbols, wrapped to
    [int] and then reduced by [% INT_MAX]. *)
Lemma hash_weigh (s : list Z) (n : nat) :
  (n ≤ Datatypes.S (length s))%nat → (n ≤ 31)%nat →
  hash s (Z.of_nat n - 1) =
  Some (Int.rem (Int.wrap (weigh s n)) Int.INT_MAX).
Proof.
  intros Hread Hfit. unfold hash, for_upto.
  match goal with |- iterate _ _ ?b _ ≫= _ = _ => set (body := b) end.
  destruct (iterate_inv
    (λ i '(value, p),
       p = Z.of_nat n - 1 - i ∧
       value = Int.wrap (weigh s (Z.to_nat i) * 2 ^ (Z.of_nat n - i)))
    body (Z.to_nat (Z.of_nat n - 1 - 0 + 1)) 0 (0, Z.of_nat n - 1))
    as ([value p] & -> & Hp & Hvalue).
  - split; [lia|done].
  - intros i [value p] Hi [-> ->]. subst body. cbv beta iota.
    replace (char_at s i) with (char_at s (Z.of_nat (Z.to_nat i)))
      by (f_equal; lia).
    rewrite char_at_code, pow2_exact by lia. simpl.
    eexists. split; [done|]. split; [lia|].
    unfold Int.add, Int.mul. rewrite wrap_add_l, wrap_add_r. f_equal.
    replace (Z.to_nat (i + 1)) with (Datatypes.S (Z.to_nat i)) by lia.
    simpl weigh.
    replace (Z.of_nat n - i) with (Z.succ (Z.of_nat n - (i + 1))) by lia.
    rewrite Z.pow_succ_r by lia.
    replace (Z.of_nat n - 1 - i) with (Z.of_nat n - (i + 1)) by lia.
    ring.
  - simpl. subst value. do 3 f_equal.
    replace (Z.of_nat n - (0 + Z.of_nat (Z.to_nat (Z.of_nat n - 1 - 0 + 1))))
      with 0 by lia.
    replace (Z.to_nat (0 + Z.of_nat (Z.to_nat (Z.of_nat n - 1 - 0 + 1))))
      with n by lia.
    simpl. lia.
Qed.

(** ** The polynomial and the window transition *)

Lemma code_drop (s : list Z) (i k : nat) :
  code (drop i s) k = code s (i + k).
Proof. unfold code. by rewrite lookup_drop. Qed.

Lemma weigh_ext (s s' : list Z) (n : nat) :
  (∀ k, (k < n)%nat → s !! k = s' !! k) → weigh s n = weigh s' n.
Proof.
  induction n as [|n IH]; intros Heq; [done|]. simpl.
  rewrite IH by (intros k Hk; apply Heq; lia).
  unfold code. by rewrite (Heq n) by lia.
Qed.

Lemma occurs_at_weigh (S P : list Z) (i : nat) :
  occurs_at S P i → weigh (drop i S) (length P) = weigh P (length P).
Proof.
  rewrite occurs_at_lookup. intros HP. apply weigh_ext. intros k Hk.
  rewrite lookup_drop. by apply HP.
Qed.

(** The leading symbol carries the highest weight. *)
Lemma weigh_shift (W : list Z) (n : nat) :
  weigh W (Datatypes.S n) =
  code W 0 * 2 ^ Z.of_nat n + weigh (drop 1 W) n.
Proof.
  induction n as [|n IH]; [simpl; lia|].
  change (weigh W (Datatypes.S (Datatypes.S n)))
    with (2 * weigh W (Datatypes.S n) + code W (Datatypes.S n)).
  rewrite IH. simpl weigh. rewrite code_drop.
  rewrite Nat2Z.inj_succ, Z.pow_succ_r by lia.
  replace (1 + n)%nat with (Datatypes.S n) by lia. ring.
Qed.

(** From a hash that still equals the polynomial of the window modulo
    [2^32], [rehash] produces what [hash] computes on the next window. *)
Lemma rehash_weigh (W : list Z) (n : nat) (h : Z) :
  (1 ≤ n ≤ 31)%nat →
  Int.wrap h = Int.wrap (weigh W n) →
  rehash (code W 0) h (code W n) (Z.of_nat n - 1) =
  Some (Int.rem (Int.wrap (weigh (drop 1 W) n)) Int.INT_MAX).
Proof.
  intros Hn Hh. unfold rehash. rewrite pow2_exact by lia. simpl.
  unfold Int.add, Int.mul, Int.sub.
  rewrite wrap_sub_r, wrap_mul_l, wrap_add_l.
  rewrite <- wrap_add_l, <- wrap_mul_l, <- wrap_sub_l, Hh.
  rewrite wrap_sub_l, wrap_mul_l, wrap_add_l.
  do 3 f_equal. destruct n as [|n]; [lia|].
  rewrite weigh_shift.
  change (weigh (drop 1 W) (Datatypes.S n))
    with (2 * weigh (drop 1 W) n + code (drop 1 W) n).
  rewrite code_drop.
  replace (Z.of_nat (Datatypes.S n) - 1) with (Z.of_nat n) by lia.
  replace (1 + n)%nat with (Datatypes.S n) by lia. ring.
Qed.

(** ** Sequences short enough for the polynomial to fit in [int] *)

Lemma dna_code (s : list Z) (k : nat) : dna s → 0 ≤ code s k ≤ 116.
Proof.
  intros Hs. unfold code. destruct (s !! k) as [c|] eqn:Hc; simpl; [|lia].
  unfold dna in Hs. rewrite Forall_lookup in Hs.
  destruct (Hs k c Hc) as [->|[->|[->| ->]]]; lia.
Qed.

Lemma dna_drop (s : list Z) (i : nat) : dna s → dna (drop i s).
Proof. apply Forall_drop. Qed.

Lemma dna_weigh (s : list Z) (n : nat) :
  dna s → 0 ≤ weigh s n ≤ 116 * (2 ^ Z.of_nat n - 1).
Proof.
  intros Hs. induction n as [|n IH]; [simpl; lia|].
  simpl weigh. rewrite Nat2Z.inj_succ, Z.pow_succ_r by lia.
  pose proof (dna_code s n Hs). lia.
Qed.

Lemma dna_weigh_fits (s : list Z) (n : nat) :
  dna s → (n ≤ 24)%nat → 0 ≤ weigh s n < Int.INT_MAX.
Proof.
  intros Hs Hn. pose proof (dna_weigh s n Hs) as Hw.
  assert (2 ^ Z.of_nat n ≤ 2 ^ 24) by (apply Z.pow_le_mono_r; lia).
  unfold Int.INT_MAX. lia.
Qed.

Lemma fits_exact z : 0 ≤ z < Int.INT_MAX → Int.rem (Int.wrap z) Int.INT_MAX = z.
Proof.
  intros Hz.
  rewrite wrap_small by (unfold Int.in_range, Int.INT_MIN, Int.INT_MAX in *; lia).
  unfold Int.rem. by apply Z.rem_small.
Qed.

Lemma hash_short (s : list Z) (n : nat) :
  dna s → (n ≤ Datatypes.S (length s))%nat → (n ≤ 24)%nat →
  hash s (Z.of_nat n - 1) = Some (weigh s n).
Proof.
  intros Hs Hread Hn. rewrite hash_weigh by lia.
  by rewrite fits_exact by by apply dna_weigh_fits.
Qed.

Lemma rehash_short (W : list Z) (n : nat) :
  dna W → (1 ≤ n ≤ 24)%nat →
  rehash (code W 0) (weigh W n) (code W n) (Z.of_nat n - 1) =
  Some (weigh (drop 1 W) n).
Proof.
  intros HW Hn. rewrite rehash_weigh by (done || lia).
  by rewrite fits_exact by (apply dna_weigh_fits; [by apply dna_drop|lia]).
Qed.

(** On windows of at most 24 symbols no operation leaves the [int] range,
    and the transition agrees with the hash of the next window. *)
Lemma rehash_consistent_short (S : list Z) (m i : nat) :
  dna S → (1 ≤ m ≤ 24)%nat → (i + m ≤ length S)%nat →
  ∃ h before after,
    hash (drop i S) (Z.of_nat m - 1) = Some h ∧
    char_at S (Z.of_nat i) = Some before ∧
    char_at S (Z.of_nat i + Z.of_nat m) = Some after ∧
    rehash before h after (Z.of_nat m - 1) =
    hash (drop (Datatypes.S i) S) (Z.of_nat m - 1).
Proof.
  intros HS Hm Hwin.
  exists (weigh (drop i S) m), (code S i), (code S (i + m)).
  split_and!.
  - apply hash_short; [by apply dna_drop|rewrite length_drop; lia|lia].
  - apply char_at_code. lia.
  - rewrite <- Nat2Z.inj_add. apply char_at_code. lia.
  - rewrite hash_short; [|by apply dna_drop|rewrite length_drop; lia|lia].
    pose proof (rehash_short (drop i S) m (dna_drop S i HS) Hm) as Hre.
    rewrite !code_drop, drop_drop in Hre.
    replace (i + 0)%nat with i in Hre by lia.
    by replace (i + 1)%nat with (Datatypes.S i) in Hre by lia.
Qed.

(** ** karpRabin *)

(** With a pattern of 1 to 24 symbols the hash never filters out a real
    occurrence, and the two matchers return the same count. *)
Lemma karpRabin_short (S P : list Z) :
  dna S → dna P → (1 ≤ length P ≤ 24)%nat → (length P ≤ length S)%nat →
  karpRabin S P = Some (occurrence_count S P).
Proof.
  intros HS HP Hshort Hle. unfold karpRabin, for_upto.
  replace (strlen P - 1) with (Z.of_nat (length P) - 1) by done.
  rewrite !hash_short by (done || lia). simpl.
  rewrite Z.sub_0_r, scan_fuel.
  remember (Datatypes.S (length S) - length P)%nat as n eqn:Hn.
  match goal with |- iterate _ _ ?b _ ≫= _ = _ => set (body := b) end.
  destruct (iterate_inv
    (λ i '(occ, h),
       occ = count_upto S P (Z.to_nat i) ∧
       h = weigh (drop (Z.to_nat i) S) (length P))
    body n 0 (0, weigh S (length P)))
    as ([occ h] & -> & Hocc & _).
  - done.
  - intros i [occ h] Hi [-> ->]. subst body. cbv beta iota.
    remember (Z.to_nat i) as k eqn:Hk.
    assert (i = Z.of_nat k) as Hik by lia. rewrite Hik in *. clear Hik Hk i.
    assert (k + length P ≤ length S)%nat as Hwin by lia.
    set (occ' := count_upto S P (Datatypes.S k)).
    assert ((if bool_decide (weigh P (length P) = weigh (drop k S) (length P))
             then j ← compare_loop (length P) S P (Z.of_nat k) 0;
                  Some (if bool_decide (j = strlen P)
                        then count_upto S P k + 1 else count_upto S P k)
             else Some (count_upto S P k)) = Some occ') as ->.
    { subst occ'. rewrite count_upto_S. case_bool_decide as Hhash.
      - destruct (compare_window S P k Hwin) as (j & -> & Hiff). simpl.
        by rewrite (bool_decide_ext _ _ Hiff).
      - rewrite bool_decide_eq_false_2; [done|].
        intros Hocc. by apply occurs_at_weigh in Hocc. }
    simpl. rewrite char_at_code by lia. simpl.
    unfold strlen. rewrite <- Nat2Z.inj_add, char_at_code by lia. simpl.
    pose proof (rehash_short (drop k S) (length P) (dna_drop S k HS) Hshort)
      as Hre.
    rewrite !code_drop, drop_drop in Hre.
    replace (k + 0)%nat with k in Hre by lia. rewrite Hre. simpl.
    eexists. split; [done|].
    replace (Z.to_nat (Z.of_nat k + 1)) with (Datatypes.S k) by lia.
    split; [done|]. by replace (k + 1)%nat with (Datatypes.S k) by lia.
  - simpl. rewrite Hocc. unfold occurrence_count, offsets, count_upto.
    by rewrite Z.add_0_l, Nat2Z.id, Hn.
Qed.

(** The hypotheses of the two results on short patterns are met by the
    first scenario of the specification, "acgtacgt" and "acgt". *)
Lemma dna_acgtacgt : dna (str "acgtacgt").
Proof.
  unfold dna. cbv [str String.list_ascii_of_string fmap list_fmap].
  repeat (apply List.Forall_cons; [vm_compute; auto|]).
  apply List.Forall_nil.
Qed.

Lemma dna_acgt : dna (str "acgt").
Proof.
  unfold dna. cbv [str String.list_ascii_of_string fmap list_fmap].
  repeat (apply List.Forall_cons; [vm_compute; auto|]).
  apply List.Forall_nil.
Qed.

Example karpRabin_short_acgt :
  karpRabin (str "acgtacgt") (str "acgt") = Some 2.
Proof.
  rewrite (karpRabin_short _ _ dna_acgtacgt dna_acgt); [done|simpl; lia..].
Qed.

Example rehash_consistent_short_acgt :
  ∃ h before after,
    hash (drop 1 (str "acgtacgt")) 3 = Some h ∧
    char_at (str "acgtacgt") 1 = Some before ∧
    char_at (str "acgtacgt") 5 = Some after ∧
    rehash before h after 3 = hash (drop 2 (str "acgtacgt")) 3.
Proof.
  apply (rehash_consistent_short (str "acgtacgt") 4 1 dna_acgtacgt);
    simpl; lia.
Qed.

(** ** The machine against the strict reading *)

Lemma iterate_extends {St : Type} (body body' : Z → St → option St)
    (fuel : nat) (lo : Z) (st st' : St) :
  (∀ i s s', body i s = Some s' → body' i s = Some s') →
  iterate fuel lo body st = Some st' →
  iterate fuel lo body' st = Some st'.
Proof.
  intros Hext. revert lo st.
  induction fuel as [|k IH]; intros lo st; simpl; [done|].
  destruct (body lo st) as [s1|] eqn:Hbody; [|done].
  rewrite (Hext _ _ _ Hbody). simpl. apply IH.
Qed.

Lemma machine_char_at (past : Z → Z) (s : list Z) (i c : Z) :
  char_at s i = Some c → Machine.char_at past s i = Some c.
Proof.
  unfold char_at, Machine.char_at. by repeat case_bool_decide.
Qed.

Lemma machine_pow2 (convert : Z → Z) (p w : Z) :
  Int.pow2 p = Some w → Machine.pow2 convert p = Some w.
Proof. unfold Int.pow2, Machine.pow2. by repeat case_bool_decide. Qed.



Lemma machine_compare_loop_unfold pastDna pastPattern fuel S P i j :
  Machine.compare_loop pastDna pastPattern fuel S P i j =
  if bool_decide (j < strlen P) then
    p ← Machine.char_at pastPattern P j;
    d ← Machine.char_at pastDna S (i + j);
    if bool_decide (p = d) then
      match fuel with
      | O => None
      | Datatypes.S k =>
          Machine.compare_loop pastDna pastPattern k S P i (j + 1)
      end
    else Some j
  else Some j.
Proof. by destruct fuel. Qed.

Lemma machine_compare_loop pastDna pastPattern fuel S P i j r :
  compare_loop fuel S P i j = Some r →
  Machine.compare_loop pastDna pastPattern fuel S P i j = Some r.
Proof.
  revert j. induction fuel as [|fuel IH]; intros j;
    rewrite compare_loop_unfold, machine_compare_loop_unfold;
    (case_bool_decide; [|done]);
    (destruct (char_at P j) as [p|] eqn:Hp; [simpl|done]);
    (destruct (char_at S (i + j)) as [d|] eqn:Hd; [simpl|done]);
    rewrite (machine_char_at pastPattern _ _ _ Hp),
            (machine_char_at pastDna _ _ _ Hd); simpl;
    case_bool_decide; try done.
  apply IH.
Qed.

Lemma machine_hash (past convert : Z → Z) (s : list Z) (len v : Z) :
  hash s len = Some v → Machine.hash past convert s len = Some v.
Proof.
  unfold hash, Machine.hash, for_upto. intros Hv.
  match type of Hv with iterate ?f ?lo ?b ?st ≫= _ = _ =>
    destruct (iterate f lo b st) as [[value p]|] eqn:Hrun; [|done] end.
  erewrite iterate_extends; [exact Hv| |exact Hrun].
  intros i [value0 p0] s'. cbv beta iota.
  destruct (char_at s i) as [c|] eqn:Hc; [simpl|done].
  destruct (Int.pow2 p0) as [w|] eqn:Hw; [simpl|done].
  by rewrite (machine_char_at past _ _ _ Hc), (machine_pow2 convert _ _ Hw).
Qed.

Lemma machine_rehash (convert : Z → Z) (before h after power v : Z) :
  rehash before h after power = Some v →
  Machine.rehash convert before h after power = Some v.
Proof.
  unfold rehash, Machine.rehash.
  destruct (Int.pow2 power) as [w|] eqn:Hw; [simpl|done].
  by rewrite (machine_pow2 convert _ _ Hw).
Qed.

Lemma machine_verification pastDna pastPattern S P i
    (patHash h occ occ' : Z) :
  (if bool_decide (patHash = h)
   then j ← compare_loop (length P) S P i 0;
        Some (if bool_decide (j = strlen P) then occ + 1 else occ)
   else Some occ) = Some occ' →
  (if bool_decide (patHash = h)
   then j ← Machine.compare_loop pastDna pastPattern (length P) S P i 0;
        Some (if bool_decide (j = strlen P) then occ + 1 else occ)
   else Some occ) = Some occ'.
Proof.
  case_bool_decide; [|done].
  destruct (compare_loop (length P) S P i 0) as [j|] eqn:Hj; [|done].
  by rewrite (machine_compare_loop pastDna pastPattern _ _ _ _ _ _ Hj).
Qed.

(** Wherever the strict reading gives [karpRabin] a result, the machine
    returns the same one, whatever lies behind the terminators and whatever
    the conversion yields. *)
Lemma machine_karpRabin (pastDna pastPattern convert : Z → Z)
    (S P : list Z) (n : Z) :
  karpRabin S P = Some n →
  Machine.karpRabin pastDna pastPattern convert S P = Some n.
Proof.
  unfold karpRabin, Machine.karpRabin, for_upto. intros Hn.
  destruct (hash P (strlen P - 1)) as [patHash|] eqn:HP; [|done].
  rewrite (machine_hash pastPattern convert _ _ _ HP).
  destruct (hash S (strlen P - 1)) as [dnaHash|] eqn:HS; [|done].
  rewrite (machine_hash pastDna convert _ _ _ HS).
  simpl in Hn |- *.
  match type of Hn with iterate ?f ?lo ?b ?st ≫= _ = _ =>
    destruct (iterate f lo b st) as [[occ h]|] eqn:Hrun; [|done] end.
  erewrite iterate_extends; [exact Hn| |exact Hrun].
  intros i [occ0 h0] s'. cbv beta iota. intros Hbody.
  match type of Hbody with ?c ≫= _ = _ =>
    destruct c as [occ'|] eqn:Hocc; [|done] end.
  rewrite (machine_verification pastDna pastPattern _ _ _ _ _ _ _ Hocc).
  simpl in Hbody |- *.
  destruct (char_at S i) as [before|] eqn:Hb; [simpl in Hbody|done].
  destruct (char_at S (i + strlen P)) as [after|] eqn:Ha;
    [simpl in Hbody|done].
  destruct (rehash before h0 after (strlen P - 1)) as [h'|] eqn:Hh;
    [simpl in Hbody|done].
  rewrite (machine_char_at pastDna _ _ _ Hb). simpl.
  rewrite (machine_char_at pastDna _ _ _ Ha). simpl.
  by rewrite (machine_rehash convert _ _ _ _ _ Hh).
Qed.



(** ** The empty pattern *)

Lemma count_upto_empty_pattern (S : list Z) (n : nat) :
  count_upto S [] n = Z.of_nat n.
Proof.
  induction n as [|n IH]; [done|].
  rewrite count_upto_S, IH, bool_decide_eq_true_2 by done. lia.
Qed.

(** * The claims *)

(** C1.  The claim is that the rolling-hash matcher returns the count of
    the brute-force matcher whenever the pattern is not longer than the
    sequence.  It does not: on the sequence "a" and the empty pattern the
    brute-force matcher counts the 2 offsets and the rolling-hash matcher
    counts 1, and on a 28-symbol sequence whose first 27-symbol window sums
    to [INT_MAX] after wrap-around the occurrence at offset 1 is lost. *)
Theorem karpRabin_loses_occurrences :
  (bruteForce (str "a") (str "") = Some 2 ∧
   karpRabin (str "a") (str "") = Some 1) ∧
  (bruteForce (str "ttcgaactattttaatataaataaaaac")
              (str "tcgaactattttaatataaataaaaac") = Some 1 ∧
   karpRabin (str "ttcgaactattttaatataaataaaaac")
             (str "tcgaactattttaatataaataaaaac") = Some 0).
Proof. by vm_compute. Qed.

(** C2 (as amended).  When the shorter of the two sequences is empty, the
    LCSS branch of [main] is not guarded: the length is 0, the distance is
    computed as [1 - 0/0], which is NaN, both are printed and the program
    ends with status 0. *)
Theorem distance_of_empty_sequence (dnaLength patternLength : Z)
    (A B : list Z) :
  Z.min (strlen A) (strlen B) = 0 →
  main "-lcss" dnaLength patternLength A B = Some (Similarity 0 NaN).
Proof.
  intros Hmin. unfold main.
  change (String.eqb "-lcss" "-lcss") with true.
  change (String.eqb "-lcss" "-bf") with false.
  change (String.eqb "-lcss" "-kr") with false.
  rewrite andb_false_r, lcss_table. simpl.
  pose proof (lcs_table_bounds A B (length A) (length B)) as Hb.
  assert (lcs_table A B (length A) (length B) = 0) as ->
    by (unfold strlen in Hmin; lia).
  assert (min (strlen A) (strlen B) = 0) as ->
    by (unfold min; case_bool_decide; lia).
  done.
Qed.

Lemma distance_of_empty_sequence_witness :
  Z.min (strlen (str "acgt")) (strlen (str "")) = 0 ∧
  main "-lcss" 4 0 (str "acgt") (str "") = Some (Similarity 0 NaN).
Proof.
  split; [reflexivity|].
  apply (distance_of_empty_sequence 4 0 (str "acgt") (str "")). reflexivity.
Defined.

(** C2 (as stated) fails: with an empty first sequence no failure is
    signalled, and the distance that is printed is NaN. *)
Lemma distance_failure_not_signalled :
  Z.min (strlen (str "")) (strlen (str "acgt")) = 0 ∧
  main "-lcss" 0 4 (str "") (str "acgt") ≠ Some Failure ∧
  main "-lcss" 0 4 (str "") (str "acgt") = Some (Similarity 0 NaN).
Proof. by vm_compute. Qed.

(** C3.  The claim is that [rehash], applied to the hash of a window, gives
    the hash of the next window computed from scratch.  On the window
    "ttcgaactattttaatataaataaaaa" the sum wraps around to [INT_MAX], which
    [% INT_MAX] turns into 0, and the transition then misses the hash of
    the next window by 2. *)
Theorem rehash_differs_from_hash :
  hash (str "ttcgaactattttaatataaataaaaac") 26 = Some 0 ∧
  char_at (str "ttcgaactattttaatataaataaaaac") 0 = Some 116 ∧
  char_at (str "ttcgaactattttaatataaataaaaac") 27 = Some 99 ∧
  rehash 116 0 99 26 = Some 1610612835 ∧
  hash (drop 1 (str "ttcgaactattttaatataaataaaaac")) 26 = Some 1610612833.
Proof. by vm_compute. Qed.

(** C4.  [bruteForce] returns the number of start offsets [i] with
    [0 <= i <= |S| - |P|] at which [P] equals [S[i .. i + |P|)]; every such
    offset counts, overlapping or not. *)
Theorem bruteForce_counts_occurrences (S P : list Z) :
  bruteForce S P = Some (occurrence_count S P).
Proof. apply bruteForce_spec. Qed.

(** C5.  [lcss] returns entry [T[|A|][|B|]] of the recurrence, and that
    entry is the length of a longest common subsequence of [A] and [B]. *)
Theorem lcss_longest_common_subsequence (A B : list Z) :
  lcss A B = Some (lcs_table A B (length A) (length B)) ∧
  lcs_length A B (lcs_table A B (length A) (length B)).
Proof. split; [apply lcss_table|apply lcs_table_optimal]. Qed.



(** C7.  [lcss] returns a length between 0 and the length of the shorter
    sequence. *)
Theorem lcss_bounds (A B : list Z) :
  ∃ n, lcss A B = Some n ∧ 0 ≤ n ≤ Z.min (strlen A) (strlen B).
Proof.
  exists (lcs_table A B (length A) (length B)). split; [apply lcss_table|].
  pose proof (lcs_table_bounds A B (length A) (length B)).
  unfold strlen. lia.
Qed.

(** C8.  [lcss] does not depend on the order of its two arguments. *)
Theorem lcss_symmetric (A B : list Z) : lcss A B = lcss B A.
Proof. by rewrite !lcss_table, lcs_table_sym. Qed.

(** C9.  On "aaaa" and "aa" both matchers return 3: the occurrences at
    offsets 0, 1 and 2 overlap and are all counted. *)
Theorem overlapping_occurrences :
  bruteForce (str "aaaa") (str "aa") = Some 3 ∧
  karpRabin (str "aaaa") (str "aa") = Some 3.
Proof. by vm_compute. Qed.

(** C10.  With the empty pattern [bruteForce] returns [|S| + 1]: each of
    the offsets [0 .. |S|] is a full match. *)
Theorem bruteForce_empty_pattern (S : list Z) :
  bruteForce S [] = Some (strlen S + 1).
Proof.
  rewrite bruteForce_spec.
  change (occurrence_count S []) with (count_upto S [] (Datatypes.S (length S))).
  rewrite count_upto_empty_pattern. unfold strlen. f_equal. lia.
Qed.

(** * Further properties *)

(** ** The loader *)

Lemma to_char_ascii (byte : Z) : 0 ≤ byte < 128 → to_char byte = byte.
Proof. intros Hb. unfold to_char. rewrite Z.mod_small by lia. lia. Qed.

Lemma to_char_not_EOF (byte : Z) : 0 ≤ byte < 255 → to_char byte ≠ EOF.
Proof.
  intros Hb. unfold to_char, EOF.
  destruct (decide (byte < 128)).
  - rewrite Z.mod_small by lia. lia.
  - replace (byte + 128) with (byte - 128 + 1 * 256) by lia.
    rewrite Z_mod_plus_full, Z.mod_small by lia. lia.
Qed.

Lemma symbols_cons (byte : Z) (stream : list Z) :
  symbols (byte :: stream) =
  if bool_decide (to_char byte ≠ 10) then to_char byte :: symbols stream
  else symbols stream.
Proof.
  unfold symbols. rewrite fmap_cons, filter_cons.
  case_decide; case_bool_decide; done.
Qed.

Lemma loadable_byte (byte : Z) :
  nucleotide byte ∨ byte = 10 → 0 ≤ byte < 128.
Proof. unfold nucleotide. lia. Qed.

Lemma count_loop_loadable (stream : list Z) (count : Z) :
  loadable stream →
  count_loop stream count = count + strlen (symbols stream).
Proof.
  intros Hs. revert count.
  induction Hs as [|byte stream Hb Hs IH]; intros count.
  - unfold strlen. simpl. lia.
  - cbn [count_loop]. rewrite symbols_cons.
    rewrite (to_char_ascii byte) by by apply loadable_byte.
    rewrite bool_decide_eq_false_2
      by (apply loadable_byte in Hb; unfold EOF; lia).
    rewrite (bool_decide_eq_false_2 (_ ∧ _)) by (unfold nucleotide in Hb; lia).
    rewrite IH. case_bool_decide; unfold strlen; simpl length; lia.
Qed.

Lemma count_loop_rejects (pre post : list Z) (byte count : Z) :
  loadable pre →
  to_char byte ≠ EOF →
  ¬ (nucleotide (to_char byte) ∨ to_char byte = 10) →
  count_loop (pre ++ byte :: post) count = EXIT_FAILURE.
Proof.
  intros Hpre HEOF Hbad. revert count.
  induction Hpre as [|b pre Hb Hpre IH]; intros count.
  - cbn [app count_loop]. rewrite bool_decide_eq_false_2 by done.
    rewrite bool_decide_eq_true_2; [done|]. unfold nucleotide in Hbad. lia.
  - cbn [app count_loop].
    rewrite (to_char_ascii b) by by apply loadable_byte.
    rewrite bool_decide_eq_false_2
      by (apply loadable_byte in Hb; unfold EOF; lia).
    rewrite (bool_decide_eq_false_2 (_ ∧ _)) by (unfold nucleotide in Hb; lia).
    apply IH.
Qed.

Lemma symbols_loadable (stream : list Z) : loadable stream → dna (symbols stream).
Proof.
  intros Hs. induction Hs as [|byte stream Hb Hs IH]; [by constructor|].
  rewrite symbols_cons, (to_char_ascii byte) by by apply loadable_byte.
  case_bool_decide; [|done]. constructor; [|done].
  destruct Hb; [done|lia].
Qed.

Lemma store_middle (pre rest : list (option Z)) (old : option Z) (v : Z) :
  store (pre ++ old :: rest) (Z.of_nat (length pre)) v =
  Some ((pre ++ [Some v]) ++ rest).
Proof.
  unfold store. rewrite bool_decide_eq_true_2
    by (rewrite length_app; simpl; lia).
  rewrite Nat2Z.id. f_equal.
  replace (length pre) with (length pre + 0)%nat at 1 by lia.
  rewrite insert_app_r. simpl. by rewrite <- app_assoc.
Qed.

Lemma store_end (pre : list (option Z)) (v : Z) :
  store pre (Z.of_nat (length pre)) v = None.
Proof. unfold store. by rewrite bool_decide_eq_false_2 by lia. Qed.

(** The loop stores the symbols at the front of the free part of the
    block, as long as they fit. *)
Lemma read_loop_fits (stream : list Z) (pre rest : list (option Z)) :
  Forall (λ byte, 0 ≤ byte < 255) stream →
  (length (symbols stream) ≤ length rest)%nat →
  read_loop stream (pre ++ rest) (Z.of_nat (length pre)) =
  Some (pre ++ (Some <$> symbols stream) ++ drop (length (symbols stream)) rest,
        Z.of_nat (length pre + length (symbols stream))).
Proof.
  intros Hs. revert pre rest.
  induction Hs as [|byte stream Hb Hs IH]; intros pre rest Hfit.
  - simpl. by rewrite Nat.add_0_r.
  - cbn [read_loop]. rewrite symbols_cons in Hfit |- *.
    rewrite bool_decide_eq_false_2 by by apply to_char_not_EOF.
    case_bool_decide as Hnl; [|by apply IH].
    destruct rest as [|old rest]; [simpl in Hfit; lia|].
    rewrite store_middle. simpl in Hfit |- *.
    replace (Z.of_nat (length pre) + 1)
      with (Z.of_nat (length (pre ++ [Some (to_char byte)])))
      by (rewrite length_app; simpl; lia).
    rewrite IH by lia. rewrite length_app, <- app_assoc. simpl.
    do 2 f_equal. lia.
Qed.

(** When they do not fit, one of the stores leaves the block. *)
Lemma read_loop_overflows (stream : list Z) (pre rest : list (option Z)) :
  Forall (λ byte, 0 ≤ byte < 255) stream →
  (length rest < length (symbols stream))%nat →
  read_loop stream (pre ++ rest) (Z.of_nat (length pre)) = None.
Proof.
  intros Hs. revert pre rest.
  induction Hs as [|byte stream Hb Hs IH]; intros pre rest Hfit.
  - simpl in Hfit. lia.
  - cbn [read_loop]. rewrite symbols_cons in Hfit.
    rewrite bool_decide_eq_false_2 by by apply to_char_not_EOF.
    case_bool_decide as Hnl; [|by apply IH].
    destruct rest as [|old rest].
    + by rewrite app_nil_r, store_end.
    + rewrite store_middle. simpl in Hfit |- *.
      replace (Z.of_nat (length pre) + 1)
        with (Z.of_nat (length (pre ++ [Some (to_char byte)])))
        by (rewrite length_app; simpl; lia).
      apply IH. lia.
Qed.

Lemma readFile_spec (fs : filesystem) (filePath : string)
    (stream : list Z) (sequence : list (option Z)) :
  fs filePath = Some stream →
  Forall (λ byte, 0 ≤ byte < 255) stream →
  readFile sequence fs filePath =
  if bool_decide (length (symbols stream) < length sequence)%nat
  then Some (EXIT_SUCCESS,
             (Some <$> symbols stream ++ [0]) ++
             drop (Datatypes.S (length (symbols stream))) sequence)
  else None.
Proof.
  intros Hopen Hs. unfold readFile. rewrite Hopen.
  destruct (decide (length (symbols stream) ≤ length sequence)%nat) as [Hfit|Hfit].
  - change (read_loop stream sequence 0)
      with (read_loop stream ([] ++ sequence)
              (Z.of_nat (length (@nil (option Z))))).
    rewrite (read_loop_fits stream [] sequence Hs Hfit). simpl.
    destruct (drop (length (symbols stream)) sequence) as [|old rest] eqn:Hrest.
    + assert (length (drop (length (symbols stream)) sequence) = 0%nat) as Hlen
        by by rewrite Hrest.
      rewrite length_drop in Hlen.
      rewrite bool_decide_eq_false_2 by lia. rewrite app_nil_r.
      replace (Z.of_nat (length (symbols stream)))
        with (Z.of_nat (length (Some <$> symbols stream)))
        by by rewrite length_fmap.
      by rewrite store_end.
    + assert (length (drop (length (symbols stream)) sequence) =
              Datatypes.S (length rest)) as Hlen by by rewrite Hrest.
      rewrite length_drop in Hlen.
      rewrite bool_decide_eq_true_2 by lia.
      replace (Z.of_nat (length (symbols stream)))
        with (Z.of_nat (length (Some <$> symbols stream)))
        by by rewrite length_fmap.
      rewrite store_middle. simpl. rewrite fmap_app. simpl.
      do 3 f_equal.
      replace (Datatypes.S (length (symbols stream)))
        with (length (symbols stream) + 1)%nat by lia.
      by rewrite <- drop_drop, Hrest.
  - change (read_loop stream sequence 0)
      with (read_loop stream ([] ++ sequence)
              (Z.of_nat (length (@nil (option Z))))).
    rewrite (read_loop_overflows stream [] sequence Hs) by lia. simpl.
    by rewrite bool_decide_eq_false_2 by lia.
Qed.

Lemma loadable_bytes (stream : list Z) :
  loadable stream → Forall (λ byte, 0 ≤ byte < 255) stream.
Proof.
  intros Hs. eapply Forall_impl; [exact Hs|].
  intros byte Hb. apply loadable_byte in Hb. lia.
Qed.

(** X1.  On a file that holds only a, c, g, t and newlines,
    [countFileCharacters] returns the number of characters that are not
    newlines. *)
Theorem countFileCharacters_counts_symbols (fs : filesystem)
    (filePath : string) (stream : list Z) :
  fs filePath = Some stream → loadable stream →
  countFileCharacters fs filePath = Returns (strlen (symbols stream)).
Proof.
  intros Hopen Hs. unfold countFileCharacters. rewrite Hopen.
  by rewrite count_loop_loadable.
Qed.

Lemma countFileCharacters_counts_symbols_witness :
  countFileCharacters (λ _, Some (str "ac" ++ [10] ++ str "gt")) "dna.txt"
  = Returns 4.
Proof.
  apply (countFileCharacters_counts_symbols
           (λ _, Some (str "ac" ++ [10] ++ str "gt")) "dna.txt"
           (str "ac" ++ [10] ++ str "gt")).
  - reflexivity.
  - unfold loadable. cbv [str String.list_ascii_of_string fmap list_fmap app].
    repeat (apply List.Forall_cons; [vm_compute; auto|]).
    apply List.Forall_nil.
Defined.

(** X2.  At the first character that is neither a, c, g, t nor a newline,
    [countFileCharacters] does not end the program: it returns
    [EXIT_FAILURE], that is 1, which its caller takes for a length. *)
Theorem countFileCharacters_invalid_character (fs : filesystem)
    (filePath : string) (pre post : list Z) (byte : Z) :
  fs filePath = Some (pre ++ byte :: post) →
  loadable pre →
  0 ≤ byte < 255 →
  ¬ (nucleotide (to_char byte) ∨ to_char byte = 10) →
  countFileCharacters fs filePath = Returns 1.
Proof.
  intros Hopen Hpre Hb Hbad. unfold countFileCharacters. rewrite Hopen.
  by rewrite count_loop_rejects by (done || by apply to_char_not_EOF).
Qed.

Lemma countFileCharacters_invalid_character_witness :
  countFileCharacters (λ _, Some ([] ++ 120 :: str "acgt")) "dna.txt"
  = Returns 1.
Proof.
  apply (countFileCharacters_invalid_character
           (λ _, Some ([] ++ 120 :: str "acgt")) "dna.txt" [] (str "acgt") 120).
  - reflexivity.
  - apply List.Forall_nil.
  - lia.
  - vm_compute. intros [[H|[H|[H|H]]]|H]; discriminate H.
Defined.

(** X3.  [readFile] checks no character: it stores every character of the
    file but the newlines, in order, and then the terminator.  It needs one
    cell more than it stores characters; in a smaller block a store lands
    outside, which is undefined. *)
Theorem readFile_stores_symbols (fs : filesystem) (filePath : string)
    (stream : list Z) (sequence : list (option Z)) :
  fs filePath = Some stream →
  Forall (λ byte, 0 ≤ byte < 255) stream →
  readFile sequence fs filePath =
  if bool_decide (length (symbols stream) < length sequence)%nat
  then Some (EXIT_SUCCESS,
             (Some <$> symbols stream ++ [0]) ++
             drop (Datatypes.S (length (symbols stream))) sequence)
  else None.
Proof. apply readFile_spec. Qed.

Lemma readFile_stores_symbols_witness :
  readFile (malloc 4) (λ _, Some (str "ax" ++ [10])) "dna.txt" =
  Some (EXIT_SUCCESS, [Some 97; Some 120; Some 0; None]).
Proof.
  apply (readFile_stores_symbols
           (λ _, Some (str "ax" ++ [10])) "dna.txt" (str "ax" ++ [10])
           (malloc 4)).
  - reflexivity.
  - cbv [str String.list_ascii_of_string fmap list_fmap app].
    repeat (apply List.Forall_cons;
      [vm_compute; split; [discriminate|reflexivity]|]).
    apply List.Forall_nil.
Defined.

(** X4.  The block that [main] allocates for a sequence has as many cells
    as [countFileCharacters] counted, so for every file of a, c, g, t and
    newlines the terminator that [readFile] stores lies one past its end;
    one more cell is enough, and the string then read is over the alphabet
    and as long as the count. *)
Theorem loaded_block_is_one_short (fs : filesystem) (filePath : string)
    (stream : list Z) :
  fs filePath = Some stream → loadable stream →
  ∃ n, countFileCharacters fs filePath = Returns n ∧
       readFile (malloc n) fs filePath = None ∧
       readFile (malloc (n + 1)) fs filePath =
         Some (EXIT_SUCCESS, Some <$> symbols stream ++ [0]) ∧
       dna (symbols stream) ∧ strlen (symbols stream) = n.
Proof.
  intros Hopen Hs. exists (strlen (symbols stream)).
  pose proof (loadable_bytes stream Hs) as Hbytes.
  split_and!.
  - unfold countFileCharacters. by rewrite Hopen, count_loop_loadable.
  - rewrite (readFile_spec fs filePath stream _ Hopen Hbytes).
    unfold malloc, strlen. rewrite length_replicate.
    by rewrite bool_decide_eq_false_2 by lia.
  - rewrite (readFile_spec fs filePath stream _ Hopen Hbytes).
    unfold malloc, strlen. rewrite length_replicate.
    rewrite bool_decide_eq_true_2 by lia.
    rewrite drop_ge by (rewrite length_replicate; lia).
    by rewrite app_nil_r.
  - by apply symbols_loadable.
  - done.
Qed.

Lemma loaded_block_is_one_short_witness :
  ∃ n, countFileCharacters (λ _, Some (str "acgt" ++ [10])) "dna.txt"
         = Returns n ∧
       readFile (malloc n) (λ _, Some (str "acgt" ++ [10])) "dna.txt" = None ∧
       readFile (malloc (n + 1)) (λ _, Some (str "acgt" ++ [10])) "dna.txt" =
         Some (EXIT_SUCCESS, Some <$> symbols (str "acgt" ++ [10]) ++ [0]) ∧
       dna (symbols (str "acgt" ++ [10])) ∧
       strlen (symbols (str "acgt" ++ [10])) = n.
Proof.
  apply (loaded_block_is_one_short
           (λ _, Some (str "acgt" ++ [10])) "dna.txt" (str "acgt" ++ [10])).
  - reflexivity.
  - unfold loadable. cbv [str String.list_ascii_of_string fmap list_fmap app].
    repeat (apply List.Forall_cons; [vm_compute; auto|]).
    apply List.Forall_nil.
Defined.

(** ** The matchers *)

Lemma rehash_defined (before h after power : Z) :
  power ≤ 30 → is_Some (rehash before h after power).
Proof.
  intros Hp. unfold rehash, Int.pow2.
  case_bool_decide; [by eexists|].
  rewrite bool_decide_eq_true_2 by done. by eexists.
Qed.

Lemma count_upto_nonneg (S P : list Z) (n : nat) : 0 ≤ count_upto S P n.
Proof. unfold count_upto. lia. Qed.

(** Whatever the hashes are, a window is counted only after the comparison
    loop has matched it symbol by symbol. *)
Lemma karpRabin_bounded (S P : list Z) :
  (length P ≤ length S)%nat → (length P ≤ 31)%nat →
  ∃ n, karpRabin S P = Some n ∧ 0 ≤ n ≤ occurrence_count S P.
Proof.
  intros Hle Hfit. unfold karpRabin, for_upto.
  replace (strlen P - 1) with (Z.of_nat (length P) - 1) by done.
  rewrite !hash_weigh by lia. simpl.
  rewrite Z.sub_0_r, scan_fuel.
  remember (Datatypes.S (length S) - length P)%nat as n eqn:Hn.
  match goal with |- ∃ _, iterate _ _ ?b ?st ≫= _ = _ ∧ _ =>
    set (body := b); set (st0 := st) end.
  destruct (iterate_inv
    (λ i '(occ, h), 0 ≤ occ ≤ count_upto S P (Z.to_nat i)) body n 0 st0)
    as ([occ h] & -> & Hocc).
  - subst st0. cbv beta iota. unfold count_upto. simpl. lia.
  - intros i [occ h] Hi Hocc. subst body. cbv beta iota.
    remember (Z.to_nat i) as k eqn:Hk.
    assert (i = Z.of_nat k) as Hik by lia. rewrite Hik in *. clear Hik Hk i.
    assert (k + length P ≤ length S)%nat as Hwin by lia.
    pose proof (count_upto_S S P k) as Hnext.
    pose proof (count_upto_nonneg S P k) as Hpos.
    destruct (compare_window S P k Hwin) as (j & Hj & Hiff).
    assert (∃ occ', (if bool_decide
                          (Int.rem (Int.wrap (weigh P (length P))) Int.INT_MAX
                           = h)
             then j ← compare_loop (length P) S P (Z.of_nat k) 0;
                  Some (if bool_decide (j = strlen P) then occ + 1 else occ)
             else Some occ) = Some occ' ∧
             0 ≤ occ' ≤ count_upto S P (Datatypes.S k))
      as (occ' & -> & Hocc').
    { rewrite Hj. simpl. rewrite Hnext.
      rewrite (bool_decide_ext _ _ Hiff).
      repeat case_bool_decide; eexists; (split; [done|lia]). }
    simpl. rewrite char_at_code by lia. simpl.
    unfold strlen. rewrite <- Nat2Z.inj_add, char_at_code by lia. simpl.
    destruct (rehash_defined (code S k) h (code S (k + length P))
                (Z.of_nat (length P) - 1)) as [h' ->]; [lia|].
    simpl. eexists. split; [done|]. cbv beta iota.
    by replace (Z.to_nat (Z.of_nat k + 1)) with (Datatypes.S k) by lia.
  - simpl. exists occ. split; [done|].
    unfold occurrence_count, offsets. unfold count_upto in Hocc.
    by rewrite Z.add_0_l, Nat2Z.id, Hn in Hocc.
Qed.

Lemma occurrence_offsets (S P : list Z) (i : nat) :
  i ∈ offsets S P ∧ occurs_at S P i ↔
  ∃ l1 l2, S = l1 ++ P ++ l2 ∧ length l1 = i.
Proof.
  unfold offsets, occurs_at. rewrite elem_of_seq. split.
  - intros [Hi HP]. exists (take i S), (drop (length P) (drop i S)).
    split.
    + rewrite <- (take_drop i S) at 1. f_equal.
      rewrite <- (take_drop (length P) (drop i S)) at 1. by rewrite HP.
    + rewrite length_take. apply Nat.min_l. lia.
  - intros (l1 & l2 & -> & <-). split.
    + rewrite !length_app. lia.
    + by rewrite drop_app_length, take_app_length.
Qed.

Lemma occurrence_count_zero (S P : list Z) :
  occurrence_count S P = 0 ↔ ¬ ∃ l1 l2, S = l1 ++ P ++ l2.
Proof.
  unfold occurrence_count. split.
  - intros Hzero (l1 & l2 & HS).
    assert (length l1 ∈ filter (occurs_at S P) (offsets S P)) as Hin.
    { apply list_elem_of_filter. apply and_comm, occurrence_offsets. eauto. }
    destruct (filter (occurs_at S P) (offsets S P)); [|simpl in Hzero; lia].
    by apply not_elem_of_nil in Hin.
  - intros Hnone.
    destruct (filter (occurs_at S P) (offsets S P)) as [|i l] eqn:Hf; [done|].
    exfalso. apply Hnone.
    assert (i ∈ filter (occurs_at S P) (offsets S P)) as Hin
      by (rewrite Hf; apply list_elem_of_here).
    apply list_elem_of_filter, and_comm, occurrence_offsets in Hin
      as (l1 & l2 & HS & _). eauto.
Qed.

Lemma hash_range_aux (value : Z) :
  - Int.INT_MAX < Int.rem value Int.INT_MAX < Int.INT_MAX.
Proof.
  unfold Int.rem.
  pose proof (Z.rem_bound_abs value Int.INT_MAX) as Hb.
  unfold Int.INT_MAX in *. lia.
Qed.

(** X5.  [karpRabin] never counts a window that is not an occurrence:
    for a pattern of at most 31 symbols that is not longer than the
    sequence it returns a count between 0 and the number of occurrences,
    whatever the hash values are. *)
Theorem karpRabin_never_overcounts (S P : list Z) :
  strlen P ≤ strlen S → strlen P ≤ 31 →
  ∃ n, karpRabin S P = Some n ∧ 0 ≤ n ≤ occurrence_count S P.
Proof.
  unfold strlen. intros Hle Hfit. apply karpRabin_bounded; lia.
Qed.

Lemma karpRabin_never_overcounts_witness :
  ∃ n, karpRabin (str "ag") (str "cc") = Some n ∧
       0 ≤ n ≤ occurrence_count (str "ag") (str "cc").
Proof.
  apply (karpRabin_never_overcounts (str "ag") (str "cc")); by vm_compute.
Defined.

(** X6.  For sequences over a, c, g, t and a pattern of 1 to 24 symbols
    that is not longer than the sequence, [karpRabin] and [bruteForce]
    return the same count, the number of occurrences. *)
Theorem karpRabin_agrees_on_short_patterns (S P : list Z) :
  dna S → dna P → 1 ≤ strlen P ≤ 24 → strlen P ≤ strlen S →
  karpRabin S P = bruteForce S P ∧
  karpRabin S P = Some (occurrence_count S P).
Proof.
  unfold strlen. intros HS HP Hshort Hle.
  rewrite bruteForce_spec. split; apply karpRabin_short; (done || lia).
Qed.

Lemma karpRabin_agrees_on_short_patterns_witness :
  karpRabin (str "acgtacgt") (str "acgt")
    = bruteForce (str "acgtacgt") (str "acgt") ∧
  karpRabin (str "acgtacgt") (str "acgt")
    = Some (occurrence_count (str "acgtacgt") (str "acgt")).
Proof.
  apply (karpRabin_agrees_on_short_patterns (str "acgtacgt") (str "acgt")).
  - exact dna_acgtacgt.
  - exact dna_acgt.
  - by vm_compute.
  - by vm_compute.
Defined.

(** X7.  On a sequence over a, c, g, t and windows of 1 to 24 symbols,
    [rehash] applied to the hash of the window at offset [i], the symbol
    that leaves and the symbol that enters gives the hash of the window at
    offset [i + 1]. *)
Theorem rehash_agrees_on_short_windows (S : list Z) (m i : nat) :
  dna S → (1 ≤ m ≤ 24)%nat → (i + m ≤ length S)%nat →
  ∃ h before after,
    hash (drop i S) (Z.of_nat m - 1) = Some h ∧
    char_at S (Z.of_nat i) = Some before ∧
    char_at S (Z.of_nat i + Z.of_nat m) = Some after ∧
    rehash before h after (Z.of_nat m - 1) =
    hash (drop (Datatypes.S i) S) (Z.of_nat m - 1).
Proof. apply rehash_consistent_short. Qed.

Lemma rehash_agrees_on_short_windows_witness :
  ∃ h before after,
    hash (drop 1 (str "acgtacgt")) 3 = Some h ∧
    char_at (str "acgtacgt") 1 = Some before ∧
    char_at (str "acgtacgt") 5 = Some after ∧
    rehash before h after 3 = hash (drop 2 (str "acgtacgt")) 3.
Proof.
  apply (rehash_agrees_on_short_windows (str "acgtacgt") 4 1).
  - exact dna_acgtacgt.
  - lia.
  - simpl. lia.
Defined.

(** X8.  On at most 24 symbols over a, c, g, t, [hash] returns the
    polynomial [s[0] * 2^(n-1) + ... + s[n-1] * 2^0] itself: nothing wraps
    around and [% INT_MAX] changes nothing.  The value lies between 0 and
    [116 * (2^n - 1)]. *)
Theorem hash_is_the_polynomial (s : list Z) (n : nat) :
  dna s → (n ≤ 24)%nat → (n ≤ Datatypes.S (length s))%nat →
  hash s (Z.of_nat n - 1) = Some (weigh s n) ∧
  0 ≤ weigh s n ≤ 116 * (2 ^ Z.of_nat n - 1).
Proof.
  intros Hs Hn Hread. split; [by apply hash_short|by apply dna_weigh].
Qed.

Lemma hash_is_the_polynomial_witness :
  hash (str "acgt") 3 = Some (97 * 8 + 99 * 4 + 103 * 2 + 116) ∧
  0 ≤ weigh (str "acgt") 4 ≤ 116 * (2 ^ 4 - 1).
Proof.
  apply (hash_is_the_polynomial (str "acgt") 4).
  - exact dna_acgt.
  - lia.
  - simpl. lia.
Defined.

(** X9.  Whenever [hash] or [rehash] returns, the value lies strictly
    between [-INT_MAX] and [INT_MAX]. *)
Theorem hash_values_are_bounded (s : list Z) (len before h after power v : Z) :
  hash s len = Some v ∨ rehash before h after power = Some v →
  - Int.INT_MAX < v < Int.INT_MAX.
Proof.
  intros [Hv|Hv].
  - unfold hash in Hv.
    destruct (for_upto 0 len _ _) as [[value p]|]; [|done].
    simpl in Hv. injection Hv as <-. apply hash_range_aux.
  - unfold rehash in Hv. destruct (Int.pow2 power); [|done].
    simpl in Hv. injection Hv as <-. apply hash_range_aux.
Qed.

Lemma hash_values_are_bounded_witness :
  - Int.INT_MAX < -1040187489 < Int.INT_MAX.
Proof.
  apply (hash_values_are_bounded
           (str "aaaaaaaaaaaaaaaaaaaaaaaaa") 24 0 0 0 0 (-1040187489)).
  left. by vm_compute.
Defined.

(** X10.  [bruteForce] returns 0 exactly when the pattern is not a
    contiguous part of the sequence. *)
Theorem bruteForce_zero_iff_no_substring (S P : list Z) :
  bruteForce S P = Some 0 ↔ ¬ ∃ l1 l2, S = l1 ++ P ++ l2.
Proof.
  rewrite bruteForce_spec, <- occurrence_count_zero.
  split; [by intros [= ->]|by intros ->].
Qed.

(** X11.  The count of [bruteForce] is never negative and never exceeds
    the number of start offsets, [|S| - |P| + 1]. *)
Theorem bruteForce_at_most_offsets (S P : list Z) :
  ∃ n, bruteForce S P = Some n ∧
       0 ≤ n ≤ Z.max 0 (strlen S - strlen P + 1).
Proof.
  exists (occurrence_count S P). split; [apply bruteForce_spec|].
  unfold occurrence_count, offsets, strlen.
  pose proof (length_filter (occurs_at S P)
                (seq 0 (Datatypes.S (length S) - length P))) as Hle.
  rewrite length_seq in Hle. lia.
Qed.

(** ** The aligner and the dispatch of [main] *)

Lemma sublist_same_length (l1 l2 : list Z) :
  l1 `sublist_of` l2 → (length l2 ≤ length l1)%nat → l1 = l2.
Proof.
  induction 1 as [|x l1 l2 Hsub IH|x l1 l2 Hsub IH]; simpl; intros Hlen.
  - done.
  - f_equal. apply IH. lia.
  - apply sublist_length in Hsub. lia.
Qed.

Lemma lcs_length_unique (A B : list Z) (n m : Z) :
  lcs_length A B n → lcs_length A B m → n = m.
Proof.
  intros [(C & HCA & HCB & HC) Hn] [(D & HDA & HDB & HD) Hm].
  specialize (Hn D HDA HDB). specialize (Hm C HCA HCB). lia.
Qed.

Lemma lcss_lcs_length (A B : list Z) :
  ∃ n, lcss A B = Some n ∧ lcs_length A B n.
Proof.
  exists (lcs_table A B (length A) (length B)).
  split; [apply lcss_table|apply lcs_table_optimal].
Qed.

Lemma lcs_table_self (A : list Z) :
  lcs_table A A (length A) (length A) = strlen A.
Proof.
  pose proof (lcs_table_bounds A A (length A) (length A)) as Hb.
  destruct (lcs_table_optimal A A) as [_ Hub].
  specialize (Hub A (reflexivity A) (reflexivity A)). unfold strlen. lia.
Qed.

Lemma main_lcss (dnaLength patternLength : Z) (A B : list Z) :
  main "-lcss" dnaLength patternLength A B =
  Some (Similarity (lcs_table A B (length A) (length B))
          (one_minus (float_div (lcs_table A B (length A) (length B))
                        (Z.min (strlen A) (strlen B))))).
Proof.
  unfold main.
  change (String.eqb "-lcss" "-lcss") with true.
  change (String.eqb "-lcss" "-bf") with false.
  change (String.eqb "-lcss" "-kr") with false.
  rewrite andb_false_r, lcss_table. simpl.
  replace (min (strlen A) (strlen B)) with (Z.min (strlen A) (strlen B))
    by (unfold min; case_bool_decide; lia).
  done.
Qed.

(** X12.  [lcss] returns the length of its second argument exactly when
    that argument is a subsequence of the first. *)
Theorem lcss_full_length_iff_subsequence (A B : list Z) :
  lcss A B = Some (strlen B) ↔ B `sublist_of` A.
Proof.
  rewrite lcss_table.
  pose proof (lcs_table_bounds A B (length A) (length B)) as Hb.
  destruct (lcs_table_optimal A B) as [(C & HCA & HCB & HC) Hub].
  unfold strlen. split.
  - intros [= Heq].
    assert (C = B) as <- by (apply sublist_same_length; [done|lia]). done.
  - intros Hsub. f_equal. specialize (Hub B Hsub (reflexivity B)). lia.
Qed.

(** X13.  Appending the same symbol to both sequences raises the result of
    [lcss] by one. *)
Theorem lcss_common_last_symbol (A B : list Z) (x : Z) :
  ∃ n, lcss A B = Some n ∧ lcss (A ++ [x]) (B ++ [x]) = Some (n + 1).
Proof.
  destruct (lcss_lcs_length A B) as (n & Hn & Hlcs).
  destruct (lcss_lcs_length (A ++ [x]) (B ++ [x])) as (m & Hm & Hlcs').
  exists n. split; [done|]. rewrite Hm. f_equal.
  eapply lcs_length_unique; [exact Hlcs'|]. by apply lcs_length_snoc_eq.
Qed.

(** X14.  Appending symbols to the first sequence never lowers the result
    of [lcss]. *)
Theorem lcss_monotone (A A' B : list Z) :
  ∃ n m, lcss A B = Some n ∧ lcss (A ++ A') B = Some m ∧ n ≤ m.
Proof.
  destruct (lcss_lcs_length A B) as (n & Hn & [(C & HCA & HCB & HC) _]).
  destruct (lcss_lcs_length (A ++ A') B) as (m & Hm & [_ Hub]).
  exists n, m. split_and!; [done..|].
  rewrite <- HC. apply Hub; [|done]. by apply sublist_inserts_r.
Qed.

(** X15.  For two sequences that are not empty, the LCSS branch of [main]
    reports the length of a longest common subsequence and a distance
    [1 - length / min(|A|,|B|)] that lies between 0 and 1. *)
Theorem distance_between_zero_and_one (dnaLength patternLength : Z)
    (A B : list Z) :
  A ≠ [] → B ≠ [] →
  ∃ n q, main "-lcss" dnaLength patternLength A B
           = Some (Similarity n (Finite q)) ∧
         lcs_length A B n ∧
         Qeq q (1 - Qmake n (Z.to_pos (Z.min (strlen A) (strlen B)))) ∧
         Qle 0 q ∧ Qle q 1.
Proof.
  intros HA HB. rewrite main_lcss.
  pose proof (lcs_table_bounds A B (length A) (length B)) as Hb.
  pose proof (lcs_table_optimal A B) as Hlcs.
  set (n := lcs_table A B (length A) (length B)) in *.
  assert (0 < Z.min (strlen A) (strlen B)) as Hmin
    by (unfold strlen; destruct A, B; simpl; done || lia).
  assert (n ≤ Z.min (strlen A) (strlen B)) as Hn by (unfold strlen; lia).
  unfold float_div. rewrite bool_decide_eq_false_2 by lia. simpl.
  eexists _, _. split; [done|]. split; [done|]. split; [reflexivity|].
  unfold Qle, Qminus, Qplus, Qopp. simpl.
  rewrite !Z2Pos.id by done. lia.
Qed.

Lemma distance_between_zero_and_one_witness :
  ∃ n q, main "-lcss" 4 4 (str "acgt") (str "gtac")
           = Some (Similarity n (Finite q)) ∧
         lcs_length (str "acgt") (str "gtac") n ∧
         Qeq q (1 - Qmake n (Z.to_pos (Z.min (strlen (str "acgt"))
                                          (strlen (str "gtac"))))) ∧
         Qle 0 q ∧ Qle q 1.
Proof.
  apply (distance_between_zero_and_one 4 4 (str "acgt") (str "gtac"));
    discriminate.
Defined.

(** X16.  For a sequence that is not empty compared with itself, the LCSS
    branch of [main] reports the length of the sequence and the distance 0. *)
Theorem distance_to_itself (dnaLength patternLength : Z) (A : list Z) :
  A ≠ [] →
  ∃ q, main "-lcss" dnaLength patternLength A A
         = Some (Similarity (strlen A) (Finite q)) ∧ Qeq q 0.
Proof.
  intros HA. rewrite main_lcss, lcs_table_self, Z.min_id.
  assert (0 < strlen A) as Hlen by (unfold strlen; destruct A; simpl; done || lia).
  unfold float_div. rewrite bool_decide_eq_false_2 by lia. simpl.
  eexists. split; [done|].
  unfold Qeq, Qminus, Qplus, Qopp. simpl.
  rewrite !Z2Pos.id by done. lia.
Qed.

Lemma distance_to_itself_witness :
  ∃ q, main "-lcss" 4 4 (str "acgt") (str "acgt")
         = Some (Similarity (strlen (str "acgt")) (Finite q)) ∧ Qeq q 0.
Proof. apply (distance_to_itself 4 4 (str "acgt")). discriminate. Defined.

(** X17.  In mode [-bf], [main] ends with a failure when the count that
    [countFileCharacters] returned for the pattern file exceeds the count
    it returned for the sequence file, and otherwise reports the number of
    occurrences of the pattern string in the sequence string. *)
Theorem main_bruteForce_mode (dnaLength patternLength : Z) (S P : list Z) :
  main "-bf" dnaLength patternLength S P =
  Some (if bool_decide (dnaLength < patternLength) then Failure
        else Found (occurrence_count S P)).
Proof.
  unfold main.
  change (String.eqb "-bf" "-lcss") with false.
  change (String.eqb "-bf" "-bf") with true.
  rewrite andb_true_r, bruteForce_spec. by case_bool_decide.
Qed.

(** The guard compares the two counts: for a pattern file "ac" and a
    sequence file "acgx", counted as 1, the run fails, and with the two
    files exchanged the scan runs and finds nothing. *)
Example main_counts_of_invalid_file :
  main "-bf" 1 2 (str "acgx") (str "ac") = Some Failure ∧
  main "-bf" 2 1 (str "ac") (str "acgx") = Some (Found 0).
Proof. by vm_compute. Qed.

(** X18.  With an algorithm name other than [-bf], [-kr] and [-lcss],
    [main] ends with a failure whatever the two sequences are, and none of
    the three algorithms is run. *)
Theorem main_unknown_algorithm (algorithm : string)
    (dnaLength patternLength : Z) (S P : list Z) :
  algorithm ≠ "-bf" → algorithm ≠ "-kr" → algorithm ≠ "-lcss" →
  main algorithm dnaLength patternLength S P = Some Failure.
Proof.
  intros Hbf Hkr Hlcss. unfold main.
  apply String.eqb_neq in Hbf, Hkr, Hlcss. rewrite Hbf, Hkr, Hlcss.
  by case_bool_decide.
Qed.

Lemma main_unknown_algorithm_witness :
  main "-x" 4 2 (str "acgt") (str "ac") = Some Failure.
Proof.
  apply (main_unknown_algorithm "-x" 4 2 (str "acgt") (str "ac"));
    discriminate.
Defined.
